(** * xbet_scraper: the polling and reconciliation engine

    A shallow embedding of [src/xbet_scraper.py] (class [XbetScraper]):
    the merge of a freshly parsed match into a stored one
    ([update_match_odds]), the per-cycle reconciliation of a parsed
    snapshot against [self.live_events] / [self.upcoming_events]
    (the body of [run_continuous_updates]), the retention trim
    ([cleanup_old_data]), the match-id derivation of the two parsers, the
    failure counter of the update loop and the two save operations.

    Python values are modelled as follows.
    - A [str] is a [string]: the sequence of its UTF-8 bytes.  Equality is
      equality of code-point sequences either way, and the byte-wise
      lexicographic order of UTF-8 coincides with Python's code-point
      order on [str].
    - A match is a [dict] from field names to values, modelled as a
      [gmap string value].  The only iteration over a match
      ([new_match.items()] in [update_match_odds]) treats every key
      independently of the others, so the iteration order is immaterial
      (see [update_match_odds_lookup]).
    - [self.live_events] is a Python list of dict objects.  The list is
      modelled as a [list] and a reference to one of its objects as the
      index of that object in the list, so that in-place mutation through
      [live_map[match_id]] is an update of the list at that index.  The
      snapshot of a cycle is parsed afresh from the page, so none of its
      records is an object of the store when the cycle starts; the records
      the cycle appends to the store are not written to again before the
      snapshot is dropped.
    - An exception is a result of its own ([Raised]); a function that
      mutates its argument returns the state of the argument next to the
      way the call ended, so that what a failed call leaves behind is part
      of the model. *)

From Stdlib Require Import String Ascii DecimalString DecimalNat.
From stdpp Require Import gmap strings list fin_maps sorting.

Open Scope string_scope.
Open Scope list_scope.
Open Scope nat_scope.
#[local] Set Warnings "-clear-no-such-hyp".

(** ** Values, exceptions *)

Module Py.

(** The values the parsers store in a match: text, the [scores] list,
    the [has_video] / [has_statistics] flags and the [None] that
    [match_date] holds before the first date header. *)
Inductive value :=
  | VStr (s : string)
  | VList (l : list string)
  | VBool (b : bool)
  | VNone.

#[export] Instance value_eq_dec : EqDecision value.
Proof. solve_decision. Defined.

Definition value_encode (v : value) : string + list string + bool + unit :=
  match v with
  | VStr s => inl (inl (inl s))
  | VList l => inl (inl (inr l))
  | VBool b => inl (inr b)
  | VNone => inr tt
  end.

Definition value_decode (x : string + list string + bool + unit) : value :=
  match x with
  | inl (inl (inl s)) => VStr s
  | inl (inl (inr l)) => VList l
  | inl (inr b) => VBool b
  | inr _ => VNone
  end.

#[export] Instance value_countable : Countable value.
Proof.
  apply (inj_countable' value_encode value_decode).
  by intros [].
Defined.

(** A list cannot be a dict key: hashing it raises [TypeError]. *)
Definition hashable (v : value) : bool :=
  match v with
  | VList _ => false
  | _ => true
  end.

Inductive exn :=
  | KeyError (key : string)
  | TypeError.

(** How a call ends: it returns a value or an exception escapes it. *)
Inductive result (A : Type) :=
  | Returned (a : A)
  | Raised (e : exn).

Arguments Returned {A} a.
Arguments Raised {A} e.

End Py.

Import Py.

(** A match record, as built by the parsers and kept in the stores. *)
Abbreviation match_data := (gmap string value).

(** ** [update_match_odds] *)

Module Merge.

(** [key not in existing_match or existing_match[key] != value] *)
Definition differs (existing_match : match_data) (key : string) (v : value) : bool :=
  match existing_match !! key with
  | None => true
  | Some old => bool_decide (old ≠ v)
  end.

(** The keys the final loop skips. *)
Definition handled : list string :=
  ["timestamp"; "score"; "scores"; "status"; "match_id"].

(** [key.startswith('odd_')] *)
Definition is_odds_key (key : string) : bool := String.prefix "odd_" key.

(** One iteration of [for key, value in new_match.items()], on the pair
    (current state of [existing_match], [odds_changed]). *)
Definition update_field (key : string) (v : value)
    (acc : match_data * bool) : match_data * bool :=
  let '(existing_match, odds_changed) := acc in
  if bool_decide (key ∈ handled) then acc
  else if is_odds_key key then
    if differs existing_match key v
    then (<[key := v]> existing_match, true)
    else acc
  else
    if differs existing_match key v
    then (<[key := v]> existing_match, odds_changed)
    else acc.

Definition update_score (new_match : match_data)
    (acc : match_data * bool) : match_data * bool :=
  match new_match !! "score" with
  | Some s =>
      if differs acc.1 "score" s then (<["score" := s]> acc.1, true) else acc
  | None => acc
  end.

Definition update_scores (new_match : match_data)
    (acc : match_data * bool) : match_data * bool :=
  match new_match !! "scores" with
  | Some s =>
      if differs acc.1 "scores" s then (<["scores" := s]> acc.1, acc.2) else acc
  | None => acc
  end.

Definition update_status (new_match : match_data)
    (acc : match_data * bool) : match_data * bool :=
  match new_match !! "status" with
  | Some s =>
      if differs acc.1 "status" s then (<["status" := s]> acc.1, true) else acc
  | None => acc
  end.

(** [update_match_odds(existing_match, new_match)].  The function mutates
    [existing_match] in place, so the model returns its state after the
    call together with the way the call ended.  [new_match['timestamp']]
    is read before anything is written: when the key is missing the
    [KeyError] leaves [existing_match] as it was. *)
Definition update_match_odds (existing_match new_match : match_data)
    : match_data * result bool :=
  match new_match !! "timestamp" with
  | None => (existing_match, Raised (KeyError "timestamp"))
  | Some ts =>
      let acc0 := (<["timestamp" := ts]> existing_match, false) in
      let acc1 := update_score new_match acc0 in
      let acc2 := update_scores new_match acc1 in
      let acc3 := update_status new_match acc2 in
      let acc4 := map_fold update_field acc3 new_match in
      (acc4.1, Returned acc4.2)
  end.

(** The keys whose change makes [update_match_odds] return [True]. *)
Definition counted (key : string) : bool :=
  bool_decide (key = "score") || bool_decide (key = "status") || is_odds_key key.

(** The fields the parsers derive the identity of a match from. *)
Definition identity_fields : list string :=
  ["league"; "team1"; "team2"; "sport"; "country"].

End Merge.

Import Merge.

(** ** Reconciliation of a parsed snapshot (body of [run_continuous_updates]) *)

Module Reconcile.

(** ['match_id' in match] / [match['match_id']] *)
Definition get_id (m : match_data) : option value := m !! "match_id".

(** [{match['match_id']: match for match in self.live_events
      if 'match_id' in match}].  The dict maps an id to (a reference to)
    the stored object, here its index; a later object with the same id
    replaces the earlier one.  An unhashable id raises. *)
Fixpoint build_map (events : list match_data) (i : nat) (acc : gmap value nat)
    : result (gmap value nat) :=
  match events with
  | [] => Returned acc
  | m :: rest =>
      match get_id m with
      | None => build_map rest (S i) acc
      | Some match_id =>
          if hashable match_id
          then build_map rest (S i) (<[match_id := i]> acc)
          else Raised TypeError
      end
  end.

(** The variables the update loop works on: [self.live_events],
    [new_live_matches] and [changed_live_matches] (references into
    [self.live_events], hence indices). *)
Record loop_state := LoopState {
  events : list match_data;
  new_matches : list match_data;
  changed_matches : list nat;
}.

(** One iteration of [for new_match in new_live_events]. *)
Definition update_event (live_map : gmap value nat) (new_match : match_data)
    (st : loop_state) : loop_state * result unit :=
  match get_id new_match with
  | None => (st, Returned tt)
  | Some match_id =>
      if hashable match_id then
        match live_map !! match_id with
        | Some i =>
            match events st !! i with
            | Some existing_match =>
                let '(existing_match', r) :=
                  update_match_odds existing_match new_match in
                let events' := <[i := existing_match']> (events st) in
                match r with
                | Returned odds_changed =>
                    (LoopState events' (new_matches st)
                       (if odds_changed then changed_matches st ++ [i]
                        else changed_matches st),
                     Returned tt)
                | Raised e =>
                    (LoopState events' (new_matches st) (changed_matches st),
                     Raised e)
                end
            | None =>
                (* not reached: [live_map] holds indices of [events] only *)
                (st, Raised (KeyError "match_id"))
            end
        | None =>
            (LoopState (events st ++ [new_match])
               (new_matches st ++ [new_match]) (changed_matches st),
             Returned tt)
        end
      else (st, Raised TypeError)
  end.

(** The loop; an exception leaves it with the state reached so far. *)
Fixpoint update_events (live_map : gmap value nat) (parsed : list match_data)
    (st : loop_state) : loop_state * result unit :=
  match parsed with
  | [] => (st, Returned tt)
  | new_match :: rest =>
      match update_event live_map new_match st with
      | (st', Returned _) => update_events live_map rest st'
      | (st', Raised e) => (st', Raised e)
      end
  end.

(** Lines 894-928 for one collection: build the lookup map from the
    store, then run the loop over the parsed snapshot.  The result holds
    the store after the cycle, the created records and the references to
    the records [update_match_odds] reported as changed. *)
Definition reconcile (stored parsed : list match_data)
    : loop_state * result unit :=
  match build_map stored 0 ∅ with
  | Returned live_map => update_events live_map parsed (LoopState stored [] [])
  | Raised e => (LoopState stored [] [], Raised e)
  end.

(** *** Vocabulary of the statements *)

(** The ids held by a list of records, in order. *)
Definition ids (l : list match_data) : list value := omap get_id l.

(** At most one entity per id. *)
Definition unique_ids (stored : list match_data) : Prop := NoDup (ids stored).

(** The ids of the snapshot that no stored entity holds. *)
Definition fresh_ids (stored parsed : list match_data) : list value :=
  filter (λ id, id ∉ ids stored) (ids parsed).

(** Every id can be a dict key. *)
Definition hashable_ids (l : list match_data) : Prop :=
  Forall (λ m, ∀ id, get_id m = Some id → hashable id = true) l.

(** Every record carries the [timestamp] the parsers always set. *)
Definition timestamped (l : list match_data) : Prop :=
  Forall (λ m, is_Some (m !! "timestamp")) l.

(** [r] is contained in [e]: every field of [r] is a field of [e] with
    the same value. *)
Definition reflects (e r : match_data) : Prop :=
  ∀ key v, r !! key = Some v → e !! key = Some v.

(** Index of the last record of [l] with id [id]. *)
Fixpoint last_index (l : list match_data) (id : value) : option nat :=
  match l with
  | [] => None
  | m :: rest =>
      match last_index rest id with
      | Some k => Some (S k)
      | None => if decide (get_id m = Some id) then Some 0 else None
      end
  end.

(** The records of a snapshot that the loop appends to the store: those
    whose id the lookup map does not hold. *)
Definition fresh (live_map : gmap value nat) (m : match_data) : bool :=
  match get_id m with
  | Some id => bool_decide (live_map !! id = None)
  | None => false
  end.

(** The lookup map points at stored records that carry the id looked up. *)
Definition points_to_ids (live_map : gmap value nat) (stored : list match_data) : Prop :=
  ∀ id j, live_map !! id = Some j →
    ∃ e, stored !! j = Some e ∧ get_id e = Some id.

End Reconcile.

Import Reconcile.

(** ** Retention ([cleanup_old_data]) *)

Module Retention.

(** [m['timestamp'] > cutoff_str].  Between two [str] this is the
    lexicographic order; Python 3 refuses to order a list, a bool or
    [None] against a [str]. *)
Definition newer_than (cutoff_str : string) (v : value) : result bool :=
  match v with
  | VStr ts => Returned (String.ltb cutoff_str ts)
  | _ => Raised TypeError
  end.

(** ['timestamp' not in m or m['timestamp'] > cutoff_str] *)
Definition keeps (cutoff_str : string) (m : match_data) : result bool :=
  match m !! "timestamp" with
  | None => Returned true
  | Some v => newer_than cutoff_str v
  end.

(** [[m for m in events if 'timestamp' not in m or m['timestamp'] > cutoff_str]] *)
Fixpoint trim (cutoff_str : string) (events : list match_data)
    : result (list match_data) :=
  match events with
  | [] => Returned []
  | m :: rest =>
      match keeps cutoff_str m with
      | Raised e => Raised e
      | Returned keep =>
          match trim cutoff_str rest with
          | Raised e => Raised e
          | Returned kept => Returned (if keep then m :: kept else kept)
          end
      end
  end.

Record stores := Stores {
  live_events : list match_data;
  upcoming_events : list match_data;
}.

(** The in-memory part of [cleanup_old_data]; [cutoff_str] is the
    formatted time 48 hours before the call.  Each store is reassigned
    only once its comprehension has been evaluated; an exception in the
    second leaves the first trimmed.  (The rotation of old files that
    follows works on the data directory only.) *)
Definition cleanup_old_data (cutoff_str : string) (s : stores)
    : stores * result unit :=
  let live :=
    match live_events s with
    | [] => Returned []
    | _ => trim cutoff_str (live_events s)
    end in
  match live with
  | Raised e => (s, Raised e)
  | Returned live' =>
      let upcoming :=
        match upcoming_events s with
        | [] => Returned []
        | _ => trim cutoff_str (upcoming_events s)
        end in
      match upcoming with
      | Raised e => (Stores live' (upcoming_events s), Raised e)
      | Returned upcoming' => (Stores live' upcoming', Returned tt)
      end
  end.

(** The record carries a timestamp that is not after the cutoff. *)
Definition at_or_before (cutoff_str : string) (m : match_data) : bool :=
  match m !! "timestamp" with
  | Some (VStr ts) => String.leb ts cutoff_str
  | _ => false
  end.

(** Records whose [timestamp], if any, is text. *)
Definition text_timestamps (events : list match_data) : Prop :=
  Forall (λ m, ∀ v, m !! "timestamp" = Some v → ∃ ts, v = VStr ts) events.

End Retention.

Import Retention.

(** ** Match ids ([parse_live_events], [parse_upcoming_events]) *)

Module Parser.

(** What the parsers read from the header of a league section. *)
Record section_info := SectionInfo {
  sport_name : string;
  country : string;
  league_name : string;
  league_url : string;
}.

(** What [parse_live_events] finds in the markup of one match.  [teams]
    is [Some] when [.c-events__teams] holds at least two team elements
    ([team1] and [team2] are only ever set together); [odds] lists the
    fields [extract_odds] stores, every one of which has a key that
    starts with [odd_], given here without that prefix. *)
Record live_cells := LiveCells {
  live_teams : option (string * string);
  live_status : option string;
  live_scores : list string;
  live_odds : list (string * string);
  live_match_url : option string;
  live_icons : option (bool * bool);
}.

(** The same for [parse_upcoming_events]. *)
Record upcoming_cells := UpcomingCells {
  upcoming_teams : option (string * string);
  upcoming_start_time : option string;
  upcoming_odds : list (string * string);
  upcoming_match_url : option string;
  upcoming_starts_in : option string;
}.

(** [str(n)] for an index. *)
Definition str_of_nat (n : nat) : string :=
  NilEmpty.string_of_uint (Nat.to_uint n).

(** Lines 349-353 and 540-544: the id is built from the team names when
    both are in [match_data], from the position in the section otherwise. *)
Definition match_id_of (sport league : string) (teams : option (string * string))
    (index : nat) : string :=
  match teams with
  | Some (team1, team2) =>
      sport +:+ "_" +:+ league +:+ "_" +:+ team1 +:+ "_" +:+ team2
  | None => sport +:+ "_" +:+ league +:+ "_" +:+ str_of_nat index
  end.

Definition set_teams (teams : option (string * string)) (d : match_data) : match_data :=
  match teams with
  | Some (team1, team2) => <["team2" := VStr team2]> (<["team1" := VStr team1]> d)
  | None => d
  end.

Definition set_opt (key : string) (v : option string) (d : match_data) : match_data :=
  match v with
  | Some s => <[key := VStr s]> d
  | None => d
  end.

(** The writes of [extract_odds]: [match_data[f'odd_...'] = ...]. *)
Definition extract_odds (odds : list (string * string)) (d : match_data) : match_data :=
  foldl (λ acc kv, <["odd_" +:+ kv.1 := VStr kv.2]> acc) d odds.

(** The body of [for match_index, match in enumerate(matches)]; [now] is
    the formatted current time. *)
Definition parse_live_match (sec : section_info) (now : string)
    (match_index : nat) (c : live_cells) : match_data :=
  let d0 : match_data :=
    {[ "sport" := VStr (sport_name sec); "country" := VStr (country sec);
       "league" := VStr (league_name sec); "league_url" := VStr (league_url sec);
       "timestamp" := VStr now ]} in
  let d1 := set_teams (live_teams c) d0 in
  let d2 := set_opt "status" (live_status c) d1 in
  let d3 :=
    match live_scores c with
    | [] => d2
    | scores =>
        <["score" := VStr (String.concat " - " scores)]>
          (<["scores" := VList scores]> d2)
    end in
  let d4 :=
    <["match_id" := VStr (match_id_of (sport_name sec) (league_name sec)
                            (live_teams c) match_index)]> d3 in
  let d5 := extract_odds (live_odds c) d4 in
  let d6 := set_opt "match_url" (live_match_url c) d5 in
  match live_icons c with
  | Some (video, statistics) =>
      <["has_statistics" := VBool statistics]> (<["has_video" := VBool video]> d6)
  | None => d6
  end.

(** The body of [for item_index, item in enumerate(match_items)] for an
    item that holds a match; [current_date] is the text of the last date
    header seen in the section, if any. *)
Definition parse_upcoming_match (sec : section_info) (now : string)
    (current_date : option string) (item_index : nat) (c : upcoming_cells)
    : match_data :=
  let d0 : match_data :=
    {[ "sport" := VStr (sport_name sec); "country" := VStr (country sec);
       "league" := VStr (league_name sec); "league_url" := VStr (league_url sec);
       "match_date" := match current_date with Some d => VStr d | None => VNone end;
       "timestamp" := VStr now ]} in
  let d1 := set_teams (upcoming_teams c) d0 in
  let d2 := set_opt "start_time" (upcoming_start_time c) d1 in
  let d3 :=
    <["match_id" := VStr (match_id_of (sport_name sec) (league_name sec)
                            (upcoming_teams c) item_index)]> d2 in
  let d4 := extract_odds (upcoming_odds c) d3 in
  let d5 := set_opt "match_url" (upcoming_match_url c) d4 in
  set_opt "starts_in" (upcoming_starts_in c) d5.

End Parser.

Import Parser.

(** ** The failure counter of the update loop *)

Module Loop.

(** How the [try] block of one pass of [while self.running] ends. *)
Inductive cycle :=
  | NoContent      (* [get_page_content] returned nothing: [continue] *)
  | RaisedEarly    (* an exception before [consecutive_errors = 0] *)
  | RaisedLate     (* an exception after it: parsing, merging, saving *)
  | Completed.     (* the block ran to its end *)

(** What the threshold branch of the loop does to the driver: the
    teardown under "Too many consecutive errors" (lines 876-884 and
    994-1002).  The driver is also torn down elsewhere, and none of that
    is an [action]: [get_page_content] quits the driver itself when a
    fetch raises (lines 253-262), and [restart_driver_if_needed] quits it
    at the top of any pass once it is four hours old (lines 741-753,
    844). *)
Inductive action :=
  | RestartDriver. (* [self.driver.quit()] and [self.driver = None] *)

Definition max_consecutive_errors : nat := 5.

(** [consecutive_errors] after the pass, and whether the pass took the
    threshold branch.  An empty list says that the threshold branch was
    not taken, not that the driver outlived the pass. *)
Definition update_cycle (consecutive_errors : nat) (c : cycle) : nat * list action :=
  match c with
  | NoContent =>
      let consecutive_errors := consecutive_errors + 1 in
      if max_consecutive_errors <=? consecutive_errors
      then (consecutive_errors, [RestartDriver])
      else (consecutive_errors, [])
  | RaisedEarly =>
      let consecutive_errors := consecutive_errors + 1 in
      if max_consecutive_errors <=? consecutive_errors
      then (0, [RestartDriver])
      else (consecutive_errors, [])
  | RaisedLate =>
      let consecutive_errors := 0 + 1 in
      if max_consecutive_errors <=? consecutive_errors
      then (0, [RestartDriver])
      else (consecutive_errors, [])
  | Completed => (0, [])
  end.

(** Successive passes; the threshold teardowns are listed in the order
    taken. *)
Fixpoint run_cycles (consecutive_errors : nat) (cs : list cycle) : nat * list action :=
  match cs with
  | [] => (consecutive_errors, [])
  | c :: rest =>
      let '(n, acts) := update_cycle consecutive_errors c in
      let '(n', acts') := run_cycles n rest in
      (n', acts ++ acts')
  end.

End Loop.

Import Loop.

(** ** Saving ([save_to_csv], [save_to_json]) *)

Module Persist.

(** How the write of a file ends: it succeeds, or an exception is caught
    and logged, the file being left untouched ([None]) or with whatever
    had reached it ([Some]). *)
Inductive write_outcome :=
  | Written
  | WriteFailed (left : option string).

Section save.

(** The serialisers and [os.path.join] are taken as given. *)
Variable to_csv : list match_data → bool → string.
Variable json_dump : list match_data → string.
Variable path_join : string → string → string.

(** The files of the data directory, by path. *)
Definition save_to_csv (data_dir : string) (data : list match_data)
    (filename : string) (append : bool) (w : write_outcome)
    (fs : gmap string string) : gmap string string :=
  match data with
  | [] => fs
  | _ =>
      let filepath := path_join data_dir filename in
      let header := negb append || negb (bool_decide (is_Some (fs !! filepath))) in
      match w with
      | Written =>
          if append
          then <[filepath := default "" (fs !! filepath) +:+ to_csv data header]> fs
          else <[filepath := to_csv data header]> fs
      | WriteFailed (Some partial) => <[filepath := partial]> fs
      | WriteFailed None => fs
      end
  end.

Definition save_to_json (data_dir : string) (data : list match_data)
    (filename : string) (w : write_outcome)
    (fs : gmap string string) : gmap string string :=
  match data with
  | [] => fs
  | _ =>
      let filepath := path_join data_dir filename in
      match w with
      | Written => <[filepath := json_dump data]> fs
      | WriteFailed (Some partial) => <[filepath := partial]> fs
      | WriteFailed None => fs
      end
  end.

(** The [finally] block of [run_continuous_updates]; [timestamp] is the
    formatted time of the shutdown. *)
Definition save_final (data_dir timestamp : string)
    (live upcoming : list match_data) (w1 w2 w3 w4 : write_outcome)
    (fs : gmap string string) : gmap string string :=
  let fs1 := save_to_csv data_dir live
               ("1xbet_live_events_final_" +:+ timestamp +:+ ".csv") false w1 fs in
  let fs2 := save_to_csv data_dir upcoming
               ("1xbet_upcoming_events_final_" +:+ timestamp +:+ ".csv") false w2 fs1 in
  let fs3 := save_to_json data_dir live
               ("1xbet_live_events_final_" +:+ timestamp +:+ ".json") w3 fs2 in
  save_to_json data_dir upcoming
    ("1xbet_upcoming_events_final_" +:+ timestamp +:+ ".json") w4 fs3.

End save.

End Persist.

Import Persist.

(** ** Odds extraction ([extract_odds], cell by cell) *)

Module Odds.

(** What [extract_odds] reads from one [.c-bets__bet] cell: its [title]
    attribute, whether [non] is among its classes, and the stripped text
    of its [.c-bets__inner] element when it has one. *)
Record bet_cell := BetCell {
  cell_title : option string;
  cell_non : bool;
  cell_inner : option string;
}.

(** [s.replace(' ', '_')].  In UTF-8 the byte of the space occurs in no
    other character. *)
Fixpoint replace_spaces (s : string) : string :=
  match s with
  | EmptyString => EmptyString
  | String c rest =>
      String (if Ascii.eqb c " "%char then "_"%char else c) (replace_spaces rest)
  end.

(** [if bet_title]: an absent or empty title counts as no title. *)
Definition truthy (s : option string) : option string :=
  match s with
  | Some EmptyString => None
  | _ => s
  end.

(** [odds_value and odds_value != '–' and odds_value != '-'] *)
Definition odds_value_of (c : bet_cell) : option string :=
  match cell_inner c with
  | Some v => if bool_decide (v = "" ∨ v = "–" ∨ v = "-") then None else Some v
  | None => None
  end.

Section extract.

(** [str.strip] and [str.lower] are taken as given. *)
Variable str_strip : string → string.
Variable str_lower : string → string.

(** The title of the cell, else the league's bet type at that position,
    else [odd_<i+1>]. *)
Definition bet_type_of (bet_types : list string) (i : nat) (c : bet_cell) : string :=
  match truthy (cell_title c) with
  | Some bet_title => str_strip bet_title
  | None =>
      match bet_types !! i with
      | Some bet_type => bet_type
      | None => "odd_" +:+ str_of_nat (i + 1)
      end
  end.

(** The body of [for i, cell in enumerate(all_bet_cells)]. *)
Definition store_named (bet_types : list string) (i : nat) (c : bet_cell)
    (d : match_data) : match_data :=
  if cell_non c then d
  else
    match odds_value_of c with
    | Some odds_value =>
        let bet_key := str_lower (replace_spaces (bet_type_of bet_types i c)) in
        <["odd_title_" +:+ bet_key :=
            VStr match truthy (cell_title c) with
                 | Some bet_title => bet_title
                 | None => "Market " +:+ str_of_nat (i + 1)
                 end]>
          (<["odd_" +:+ bet_key := VStr odds_value]> d)
    | None => d
    end.

Fixpoint store_named_cells (bet_types : list string) (i : nat)
    (cells : list bet_cell) (d : match_data) : match_data :=
  match cells with
  | [] => d
  | c :: rest => store_named_cells bet_types (S i) rest (store_named bet_types i c d)
  end.

(** The body of [for i, cell in enumerate(valid_bet_cells)]. *)
Definition store_position (i : nat) (c : bet_cell) (d : match_data) : match_data :=
  match odds_value_of c with
  | Some odds_value => <["odd_position_" +:+ str_of_nat (i + 1) := VStr odds_value]> d
  | None => d
  end.

Fixpoint store_positions (i : nat) (cells : list bet_cell) (d : match_data)
    : match_data :=
  match cells with
  | [] => d
  | c :: rest => store_positions (S i) rest (store_position i c d)
  end.

(** [valid_bet_cells] *)
Definition valid_cells (cells : list bet_cell) : list bet_cell :=
  filter (λ c, cell_non c = false) cells.

(** [extract_odds(match, bet_types, match_data)]; [container] is the
    list of the cells of the [.c-bets] element found for the match, if
    one was found. *)
Definition extract_odds_cells (bet_types : list string)
    (container : option (list bet_cell)) (d : match_data) : match_data :=
  match container with
  | None => d
  | Some all_bet_cells =>
      store_positions 0 (valid_cells all_bet_cells)
        (store_named_cells bet_types 0 all_bet_cells d)
  end.

(** The same writes as a list of (key without [odd_], value), in the
    order made. *)
Definition named_writes (bet_types : list string) (i : nat) (c : bet_cell)
    : list (string * string) :=
  if cell_non c then []
  else
    match odds_value_of c with
    | Some odds_value =>
        let bet_key := str_lower (replace_spaces (bet_type_of bet_types i c)) in
        [(bet_key, odds_value);
         ("title_" +:+ bet_key,
          match truthy (cell_title c) with
          | Some bet_title => bet_title
          | None => "Market " +:+ str_of_nat (i + 1)
          end)]
    | None => []
    end.

Fixpoint named_cells_writes (bet_types : list string) (i : nat)
    (cells : list bet_cell) : list (string * string) :=
  match cells with
  | [] => []
  | c :: rest => named_writes bet_types i c ++ named_cells_writes bet_types (S i) rest
  end.

Fixpoint positions_writes (i : nat) (cells : list bet_cell) : list (string * string) :=
  match cells with
  | [] => []
  | c :: rest =>
      match odds_value_of c with
      | Some odds_value => [("position_" +:+ str_of_nat (i + 1), odds_value)]
      | None => []
      end ++ positions_writes (S i) rest
  end.

Definition odds_writes (bet_types : list string)
    (container : option (list bet_cell)) : list (string * string) :=
  match container with
  | None => []
  | Some all_bet_cells =>
      named_cells_writes bet_types 0 all_bet_cells
      ++ positions_writes 0 (valid_cells all_bet_cells)
  end.

End extract.

End Odds.

Import Odds.

(** ** Sport names and leagues ([get_sport_name], [get_all_leagues]) *)

Module Leagues.

Definition sport_mapping : list (string * string) :=
  [("1", "Football"); ("2", "Ice Hockey"); ("3", "Basketball"); ("4", "Tennis");
   ("10", "Table Tennis"); ("66", "Cricket"); ("85", "FIFA"); ("95", "Volleyball");
   ("17", "Hockey"); ("29", "Baseball"); ("107", "Darts"); ("128", "Handball")].

(** [sport_mapping.get(sport_id, f"Sport {sport_id}")] *)
Definition get_sport_name (sport_id : string) : string :=
  default ("Sport " +:+ sport_id)
    ((list_to_map sport_mapping : gmap string string) !! sport_id).

(** What [get_all_leagues] reads from one [.c-events__item_head]: the
    stripped text and the [href] of its [.c-events__liga] element, the
    sport id of its icon, the country of its flag, and whether it sits
    in a [top-champs-banner]. *)
Record league_header := LeagueHeader {
  header_league : option (string * option string);
  header_sport_type : option string;
  header_country : option string;
  header_top : bool;
}.

(** [league_data] for a header, none when the header has no league
    element. *)
Definition league_data_of (h : league_header) : option match_data :=
  match header_league h with
  | None => None
  | Some (league_name, href) =>
      let sport_name := get_sport_name (default "Unknown" (header_sport_type h)) in
      let league_data : match_data :=
        {[ "name" := VStr league_name;
           "url" := VStr (default "" href);
           "sport" := VStr sport_name;
           "country" := VStr (default "International" (header_country h));
           "league_id" := VStr (sport_name +:+ "_" +:+ league_name) ]} in
      Some (if header_top h
            then <["is_top_event" := VBool true]> league_data
            else league_data)
  end.

(** The loop over the headers; [leagues] is the list built so far. *)
Fixpoint collect_leagues (headers : list league_header)
    (leagues : list match_data) : list match_data :=
  match headers with
  | [] => leagues
  | h :: rest =>
      match league_data_of h with
      | None => collect_leagues rest leagues
      | Some league_data =>
          if bool_decide
               (Exists (λ l, l !! "league_id" = league_data !! "league_id") leagues)
          then collect_leagues rest leagues
          else collect_leagues rest (leagues ++ [league_data])
      end
  end.

(** [get_all_leagues(html_content)] on a page that was fetched. *)
Definition get_all_leagues (headers : list league_header) : list match_data :=
  collect_leagues headers [].

(** The league ids of a list of leagues, in order. *)
Definition league_ids (leagues : list match_data) : list value :=
  omap (λ l, l !! "league_id") leagues.

End Leagues.

Import Leagues.

(** ** Rotation of old files ([cleanup_old_data], second part) *)

Module Rotation.

(** A file matched by the pattern, with its modification time; of the
    time only the order is used. *)
Abbreviation file := (string * nat)%type.

(** Where a file goes in a list sorted by time: behind the files that
    are not newer. *)
Fixpoint insert_by_mtime (f : file) (sorted : list file) : list file :=
  match sorted with
  | [] => [f]
  | g :: rest =>
      if f.2 <? g.2 then f :: g :: rest else g :: insert_by_mtime f rest
  end.

(** [files.sort(key=os.path.getmtime)]: the stable ascending sort. *)
Definition sort_by_mtime (files : list file) : list file :=
  foldl (λ sorted f, insert_by_mtime f sorted) [] files.

(** [files[:-5]] when there are more than five files: the files
    [os.remove] is called on. *)
Definition old_files (files : list file) : list file :=
  let sorted := sort_by_mtime files in
  if 5 <? length sorted then take (length sorted - 5) sorted else [].

(** The files the rotation does not try to remove. *)
Definition kept_files (files : list file) : list file :=
  let sorted := sort_by_mtime files in
  if 5 <? length sorted then drop (length sorted - 5) sorted else sorted.

(** The matched files left in the directory; [remove_fails] tells for
    which paths [os.remove] raises (the error is logged and the loop
    goes on). *)
Definition rotate (remove_fails : string → bool) (files : list file) : list file :=
  filter (λ f, remove_fails f.1 = true) (old_files files) ++ kept_files files.

End Rotation.

Import Rotation.

(** ** Saving and logging the changes of a cycle *)

Module Cycle.

(** The record carries an id that no stored entity holds. *)
Definition is_new (stored : list match_data) (m : match_data) : bool :=
  match get_id m with
  | Some id => bool_decide (id ∉ ids stored)
  | None => false
  end.

(** The stored match already holds every score, status and odds value
    the record carries. *)
Definition agrees (e r : match_data) : Prop :=
  ∀ key v, r !! key = Some v → counted key = true → e !! key = Some v.

(** A line of [odds_changes_log.txt]: the collection, the two team
    fields of the match, the field and its two values. *)
Record log_line := LogLine {
  line_label : string;
  line_team1 : option value;
  line_team2 : option value;
  line_key : string;
  line_old : value;
  line_new : value;
}.

#[export] Instance log_line_eq_dec : EqDecision log_line.
Proof. solve_decision. Defined.

(** The lines written for one changed match: one for every [odd_] key
    of [m] that [old_match] holds with another value.  (The keys are
    gone through in the order of the map, not in the insertion order of
    the dict.) *)
Definition odds_lines (label : string) (old_match m : match_data) : list log_line :=
  omap (λ kv : string * value,
          if is_odds_key kv.1 then
            match old_match !! kv.1 with
            | Some old =>
                if bool_decide (old ≠ kv.2)
                then Some (LogLine label (m !! "team1") (m !! "team2") kv.1 old kv.2)
                else None
            | None => None
            end
          else None)
       (map_to_list m).

(** [next((m for m in old_live_events if 'match_id' in m and
    m['match_id'] == match['match_id']), {})].  [old_live_events] is the
    shallow copy [self.live_events.copy()] taken before the merge: a new
    list of the same [n] objects.  By the time the log is written these
    objects are in the state the merge left them in, so the search goes
    through the first [n] records of the store as it is after the merge. *)
Definition old_match_of (n : nat) (events_after : list match_data) (id : value)
    : match_data :=
  match list_find (λ m, get_id m = Some id) (take n events_after) with
  | Some (_, m) => m
  | None => ∅
  end.

(** The lines written for the matches of [changed_live_matches]. *)
Definition log_changes (label : string) (n : nat) (events_after : list match_data)
    (changed : list nat) : list log_line :=
  flat_map
    (λ i, match events_after !! i with
          | Some m =>
              match get_id m with
              | Some id => odds_lines label (old_match_of n events_after id) m
              | None => [] (* not reached: a changed match was found by its id *)
              end
          | None => []
          end)
    changed.

Section persist.

Variable to_csv : list match_data → bool → string.
Variable json_dump : list match_data → string.
Variable path_join : string → string → string.

(** Lines 937-946 (and 948-957): what is saved for one collection after
    the merge.  [collection] is [1xbet_live_events] or
    [1xbet_upcoming_events], [timestamp] the formatted time.  This is one
    step of the cycle and the only one modelled here as a write: the same
    cycle also saves the other collection, appends to
    [odds_changes_log.txt] when something changed, rewrites the league
    files every 30th update, and logs to [scraper.log]. *)
Definition persist_changes (data_dir collection timestamp : string)
    (update_count : nat) (st : loop_state)
    (w_json w_snapshot w_csv : write_outcome)
    (fs : gmap string string) : gmap string string :=
  match changed_matches st, new_matches st with
  | [], [] => fs
  | _, _ =>
      let fs1 := save_to_json json_dump path_join data_dir (events st)
                   (collection +:+ ".json") w_json fs in
      let fs2 :=
        if update_count mod 10 =? 0
        then save_to_json json_dump path_join data_dir (events st)
               (collection +:+ "_" +:+ timestamp +:+ ".json") w_snapshot fs1
        else fs1 in
      match new_matches st with
      | [] => fs2
      | _ => save_to_csv to_csv path_join data_dir (new_matches st)
               (collection +:+ ".csv") true w_csv fs2
      end
  end.

End persist.

End Cycle.

Import Cycle.

(** ** Sample data *)

Module Examples.

Definition fa_cup : section_info :=
  SectionInfo "Football" "gb" "FA Cup" "line/football/fa-cup".

(** The same league section with another flag icon in its header. *)
Definition fa_cup_other_flag : section_info :=
  SectionInfo "Football" "en" "FA Cup" "line/football/fa-cup".

(** Two fixtures of the same two teams, listed under two dates of one
    snapshot of the upcoming section. *)
Definition first_leg : match_data :=
  parse_upcoming_match fa_cup "2025-04-01 10:00:00" (Some "12 April") 1
    (UpcomingCells (Some ("Arsenal", "Chelsea")) (Some "18:00")
       [("w1", "1.85"); ("title_w1", "W1"); ("position_1", "1.85")] None (Some "11 days"))%string.

Definition second_leg : match_data :=
  parse_upcoming_match fa_cup "2025-04-01 10:00:00" (Some "19 April") 3
    (UpcomingCells (Some ("Arsenal", "Chelsea")) (Some "18:00")
       [("w1", "2.10"); ("title_w1", "W1"); ("position_1", "2.10")] None (Some "18 days"))%string.

(** The first fixture as parsed two minutes later: only the countdown
    has moved. *)
Definition first_leg_later : match_data :=
  parse_upcoming_match fa_cup "2025-04-01 10:02:00" (Some "12 April") 1
    (UpcomingCells (Some ("Arsenal", "Chelsea")) (Some "18:00")
       [("w1", "1.85"); ("title_w1", "W1"); ("position_1", "1.85")] None (Some "10 days"))%string.

(** The first fixture parsed under the other flag. *)
Definition first_leg_other_flag : match_data :=
  parse_upcoming_match fa_cup_other_flag "2025-04-01 10:02:00" (Some "12 April") 1
    (UpcomingCells (Some ("Arsenal", "Chelsea")) (Some "18:00")
       [("w1", "1.85"); ("title_w1", "W1"); ("position_1", "1.85")] None (Some "11 days"))%string.

(** The first fixture with its market suspended and new odds on it. *)
Definition first_leg_no_odds : match_data :=
  parse_upcoming_match fa_cup "2025-04-01 10:02:00" (Some "12 April") 1
    (UpcomingCells (Some ("Arsenal", "Chelsea")) (Some "18:00")
       [] None (Some "11 days"))%string.

Definition first_leg_new_odds : match_data :=
  parse_upcoming_match fa_cup "2025-04-01 10:02:00" (Some "12 April") 1
    (UpcomingCells (Some ("Arsenal", "Chelsea")) (Some "18:00")
       [("w1", "1.90"); ("title_w1", "W1"); ("position_1", "1.90")] None (Some "11 days"))%string.

(** Another match of the section. *)
Definition other_match : match_data :=
  parse_upcoming_match fa_cup "2025-04-01 10:02:00" (Some "12 April") 2
    (UpcomingCells (Some ("Everton", "Fulham")) (Some "20:00")
       [("w1", "2.40"); ("title_w1", "W1"); ("position_1", "2.40")] None (Some "11 days"))%string.

Definition fixture_id : value := VStr "Football_FA Cup_Arsenal_Chelsea".

End Examples.

Import Examples.

(** ** More sample data *)

Module MoreExamples.

(** A row of cells: the first market suspended, two with odds, one
    showing a dash. *)
Definition sample_cells : list bet_cell :=
  [ BetCell (Some "W1") true (Some "1.50");
    BetCell (Some "X") false (Some "3.40");
    BetCell None false (Some "-");
    BetCell None false (Some "2.75") ].

(** The same row with nothing on offer. *)
Definition closed_cells : list bet_cell :=
  [ BetCell (Some "W1") true (Some "1.50");
    BetCell None false (Some "–");
    BetCell None false None ].

(** Headers of a page: one league shown in the live and in the upcoming
    part, and a header without a league link. *)
Definition sample_headers : list league_header :=
  [ LeagueHeader (Some ("FA Cup", Some "line/football/fa-cup")) (Some "1") (Some "gb") true;
    LeagueHeader None (Some "4") None false;
    LeagueHeader (Some ("FA Cup", None)) (Some "1") (Some "en") false;
    LeagueHeader (Some ("ATP Rome", None)) (Some "4") None false ].

(** Eight timestamped copies, in the order the directory lists them. *)
Definition sample_files : list file :=
  [ ("1xbet_live_events_20250401-1040.json", 1040);
    ("1xbet_live_events_20250401-1000.json", 1000);
    ("1xbet_live_events_20250401-1100.json", 1100);
    ("1xbet_live_events_20250401-1020.json", 1020);
    ("1xbet_live_events_20250401-1140.json", 1140);
    ("1xbet_live_events_20250401-1120.json", 1120);
    ("1xbet_live_events_final_20250401-1030.json", 1030);
    ("1xbet_live_events_20250401-1200.json", 1200) ].

(** [os.path.join] for a directory and a plain file name. *)
Definition sample_join (dir name : string) : string := dir +:+ "/" +:+ name.

(** Stand-ins for the serialisers: the number of records. *)
Definition sample_json (data : list match_data) : string :=
  "json:" +:+ str_of_nat (length data).

Definition sample_csv (data : list match_data) (header : bool) : string :=
  (if header then "header;" else "") +:+ "rows:" +:+ str_of_nat (length data) +:+ ";".

End MoreExamples.

Import MoreExamples.

(** ** Facts about [update_match_odds] *)

Implicit Types (existing_match new_match : match_data) (key : string) (v : value).

Lemma differs_false existing_match key v :
  differs existing_match key v = false ↔ existing_match !! key = Some v.
Proof.
  unfold differs. destruct (existing_match !! key) as [old|]; [|done].
  rewrite bool_decide_eq_false. split.
  - intros Hnn. f_equal. by destruct (decide (old = v)).
  - intros [= ->] Hne. done.
Qed.

Lemma differs_true existing_match key v :
  differs existing_match key v = true ↔ existing_match !! key ≠ Some v.
Proof.
  rewrite <- differs_false. by destruct (differs existing_match key v).
Qed.

Lemma odds_key_not_handled key : is_odds_key key = true → key ∉ handled.
Proof.
  intros Hodd Hin. unfold handled in Hin.
  repeat (apply elem_of_cons in Hin as [-> | Hin]; [discriminate Hodd|]).
  by apply elem_of_nil in Hin.
Qed.

(** The final loop, key by key: a key of [new_match] outside the skip
    list ends up holding the value of [new_match], every other key keeps
    what it held; the flag is raised exactly by an [odd_] key whose
    value was not already stored. *)
Lemma update_fields_spec (acc : match_data * bool) new_match :
  (∀ key, (map_fold update_field acc new_match).1 !! key =
          match new_match !! key with
          | Some v => if bool_decide (key ∈ handled) then acc.1 !! key else Some v
          | None => acc.1 !! key
          end)
  ∧ ((map_fold update_field acc new_match).2 = true ↔
     acc.2 = true ∨
     ∃ key v, new_match !! key = Some v ∧ is_odds_key key = true
              ∧ acc.1 !! key ≠ Some v).
Proof.
  apply (map_fold_weak_ind
    (λ r m,
      (∀ key, r.1 !! key =
              match m !! key with
              | Some v => if bool_decide (key ∈ handled) then acc.1 !! key else Some v
              | None => acc.1 !! key
              end)
      ∧ (r.2 = true ↔
         acc.2 = true ∨
         ∃ key v, m !! key = Some v ∧ is_odds_key key = true
                  ∧ acc.1 !! key ≠ Some v))).
  - split.
    + intros key. by rewrite lookup_empty.
    + split; [by left|]. intros [?|(key & v & Hk & _)]; [done|].
      by rewrite lookup_empty in Hk.
  - intros i x m [r c] Hfresh [Hlook Hflag]. simpl in Hlook, Hflag.
    assert (Hri : r !! i = acc.1 !! i).
    { by rewrite Hlook, Hfresh. }
    assert (Hstep : ∀ key, (update_field i x (r, c)).1 !! key =
              if decide (i = key)
              then (if bool_decide (i ∈ handled) then acc.1 !! i else Some x)
              else r !! key).
    { intros key. unfold update_field.
      destruct (decide (i = key)) as [<-|Hne].
      - case_bool_decide; [done|].
        destruct (is_odds_key i);
          destruct (differs r i x) eqn:Hd; simpl;
          rewrite ?lookup_insert_eq; try done;
          by apply differs_false in Hd.
      - case_bool_decide; [done|].
        destruct (is_odds_key i); destruct (differs r i x); simpl;
          by rewrite ?lookup_insert_ne. }
    split.
    + intros key. rewrite Hstep. rewrite lookup_insert.
      destruct (decide (i = key)) as [<-|Hne]; [done|]. apply Hlook.
    + assert (Hc : (update_field i x (r, c)).2 = true ↔
                c = true ∨ (is_odds_key i = true ∧ acc.1 !! i ≠ Some x)).
      { unfold update_field. case_bool_decide as Hh.
        - simpl. split; [by left|]. intros [?|[Ho _]]; [done|].
          by apply odds_key_not_handled in Ho.
        - destruct (is_odds_key i); destruct (differs r i x) eqn:Hd; simpl.
          + split; [|done]. intros _. right. split; [done|].
            apply differs_true in Hd. by rewrite <- Hri.
          + split; [by left|]. intros [?|[_ Hne]]; [done|].
            apply differs_false in Hd. by rewrite <- Hri in Hne.
          + split; [by left|]. by intros [?|[? _]].
          + split; [by left|]. by intros [?|[? _]]. }
      rewrite Hc, Hflag. split.
      * intros [[?|(key & v & Hk & Ho & Hne)]|[Ho Hne]].
        -- by left.
        -- right. exists key, v. split; [|done].
           rewrite lookup_insert_ne; [done|]. intros ->. by rewrite Hfresh in Hk.
        -- right. exists i, x. by rewrite lookup_insert_eq.
      * intros [?|(key & v & Hk & Ho & Hne)]; [by left; left|].
        destruct (decide (i = key)) as [<-|Hik].
        -- rewrite lookup_insert_eq in Hk. injection Hk as <-. by right.
        -- rewrite lookup_insert_ne in Hk by done. left; right. by exists key, v.
Qed.

Lemma update_score_lookup new_match (acc : match_data * bool) key :
  (update_score new_match acc).1 !! key =
  if decide (key = "score")
  then match new_match !! "score" with Some s => Some s | None => acc.1 !! key end
  else acc.1 !! key.
Proof.
  unfold update_score. destruct (new_match !! "score") as [s|] eqn:Hs.
  - destruct (differs acc.1 "score" s) eqn:Hd; simpl.
    + rewrite lookup_insert. destruct (decide (key = "score")) as [->|];
        case_decide; congruence.
    + apply differs_false in Hd. case_decide; congruence.
  - by case_decide.
Qed.

Lemma update_scores_lookup new_match (acc : match_data * bool) key :
  (update_scores new_match acc).1 !! key =
  if decide (key = "scores")
  then match new_match !! "scores" with Some s => Some s | None => acc.1 !! key end
  else acc.1 !! key.
Proof.
  unfold update_scores. destruct (new_match !! "scores") as [s|] eqn:Hs.
  - destruct (differs acc.1 "scores" s) eqn:Hd; simpl.
    + rewrite lookup_insert. destruct (decide (key = "scores")) as [->|];
        case_decide; congruence.
    + apply differs_false in Hd. case_decide; congruence.
  - by case_decide.
Qed.

Lemma update_status_lookup new_match (acc : match_data * bool) key :
  (update_status new_match acc).1 !! key =
  if decide (key = "status")
  then match new_match !! "status" with Some s => Some s | None => acc.1 !! key end
  else acc.1 !! key.
Proof.
  unfold update_status. destruct (new_match !! "status") as [s|] eqn:Hs.
  - destruct (differs acc.1 "status" s) eqn:Hd; simpl.
    + rewrite lookup_insert. destruct (decide (key = "status")) as [->|];
        case_decide; congruence.
    + apply differs_false in Hd. case_decide; congruence.
  - by case_decide.
Qed.

Lemma update_score_flag new_match (acc : match_data * bool) :
  (update_score new_match acc).2 = true ↔
  acc.2 = true ∨ ∃ v, new_match !! "score" = Some v ∧ acc.1 !! "score" ≠ Some v.
Proof.
  unfold update_score. destruct (new_match !! "score") as [s|] eqn:Hs.
  - destruct (differs acc.1 "score" s) eqn:Hd; simpl.
    + apply differs_true in Hd. naive_solver.
    + apply differs_false in Hd. naive_solver.
  - naive_solver.
Qed.

Lemma update_scores_flag new_match (acc : match_data * bool) :
  (update_scores new_match acc).2 = acc.2.
Proof.
  unfold update_scores. destruct (new_match !! "scores") as [s|]; [|done].
  by destruct (differs acc.1 "scores" s).
Qed.

Lemma update_status_flag new_match (acc : match_data * bool) :
  (update_status new_match acc).2 = true ↔
  acc.2 = true ∨ ∃ v, new_match !! "status" = Some v ∧ acc.1 !! "status" ≠ Some v.
Proof.
  unfold update_status. destruct (new_match !! "status") as [s|] eqn:Hs.
  - destruct (differs acc.1 "status" s) eqn:Hd; simpl.
    + apply differs_true in Hd. naive_solver.
    + apply differs_false in Hd. naive_solver.
  - naive_solver.
Qed.

(** What [existing_match] holds after a merge that returned: every key of
    [new_match] other than [match_id] holds the value of [new_match],
    every other key holds what it held before. *)
Lemma update_match_odds_lookup existing_match new_match ts key :
  new_match !! "timestamp" = Some ts →
  (update_match_odds existing_match new_match).1 !! key =
  if decide (key = "match_id") then existing_match !! key
  else match new_match !! key with
       | Some v => Some v
       | None => existing_match !! key
       end.
Proof.
  intros Hts. unfold update_match_odds. rewrite Hts. cbv zeta. simpl.
  destruct (update_fields_spec
    (update_status new_match (update_scores new_match (update_score new_match
       (<["timestamp" := ts]> existing_match, false)))) new_match) as [-> _].
  rewrite update_status_lookup, update_scores_lookup, update_score_lookup. simpl.
  rewrite lookup_insert.
  destruct (decide (key = "match_id")) as [->|Hid].
  { destruct (new_match !! "match_id"); by simplify_map_eq. }
  destruct (decide (key = "status")) as [->|Hst].
  { by destruct (new_match !! "status"). }
  destruct (decide (key = "scores")) as [->|Hss].
  { by destruct (new_match !! "scores"). }
  destruct (decide (key = "score")) as [->|Hsc].
  { by destruct (new_match !! "score"). }
  destruct (decide ("timestamp" = key)) as [<-|Htk].
  { by rewrite Hts. }
  destruct (new_match !! key) eqn:Hk; [|done].
  rewrite bool_decide_eq_false_2; [done|].
  unfold handled. set_solver.
Qed.

Lemma odds_key_lookup_acc3 existing_match new_match ts key :
  is_odds_key key = true →
  (update_status new_match (update_scores new_match (update_score new_match
     (<["timestamp" := ts]> existing_match, false)))).1 !! key
  = existing_match !! key.
Proof.
  intros Ho.
  rewrite update_status_lookup, update_scores_lookup, update_score_lookup. simpl.
  repeat (case_decide; [subst key; discriminate Ho|]).
  rewrite lookup_insert_ne; [done|]. intros <-. discriminate Ho.
Qed.

(** When [update_match_odds] returns, it returns [True] exactly when
    [new_match] carries a [score], a [status] or an [odd_] field whose
    value [existing_match] did not already hold. *)
Lemma update_match_odds_flag existing_match new_match ts :
  new_match !! "timestamp" = Some ts →
  ∃ odds_changed,
    (update_match_odds existing_match new_match).2 = Returned odds_changed
    ∧ (odds_changed = true ↔
       ∃ key v, new_match !! key = Some v ∧ counted key = true
                ∧ existing_match !! key ≠ Some v).
Proof.
  intros Hts. unfold update_match_odds. rewrite Hts. cbv zeta. simpl.
  eexists; split; [reflexivity|].
  destruct (update_fields_spec
    (update_status new_match (update_scores new_match (update_score new_match
       (<["timestamp" := ts]> existing_match, false)))) new_match) as [_ ->].
  rewrite update_status_flag, update_scores_flag, update_score_flag.
  rewrite update_scores_lookup, update_score_lookup. simpl.
  rewrite !lookup_insert_ne by done.
  split.
  - intros [[[?|(v & Hv & Hne)]|(v & Hv & Hne)]|(key & v & Hv & Ho & Hne)].
    + done.
    + exists "score", v. by repeat split.
    + exists "status", v. by repeat split.
    + exists key, v. split; [done|]. split.
      * unfold counted. rewrite Ho. by rewrite orb_true_r.
      * by rewrite odds_key_lookup_acc3 in Hne.
  - intros (key & v & Hv & Hc & Hne). unfold counted in Hc.
    apply orb_true_iff in Hc as [Hc|Ho].
    + apply orb_true_iff in Hc as [Hc|Hc]; apply bool_decide_eq_true in Hc; subst key.
      * left; left; right. by exists v.
      * left; right. by exists v.
    + right. exists key, v. split; [done|]. split; [done|].
      by rewrite odds_key_lookup_acc3.
Qed.

(** A [KeyError] leaves the stored match as it was. *)
Lemma update_match_odds_raised existing_match new_match :
  new_match !! "timestamp" = None →
  update_match_odds existing_match new_match
  = (existing_match, Raised (KeyError "timestamp")).
Proof. intros Hts. unfold update_match_odds. by rewrite Hts. Qed.

Lemma update_match_odds_id existing_match new_match :
  get_id (update_match_odds existing_match new_match).1 = get_id existing_match.
Proof.
  unfold get_id. destruct (new_match !! "timestamp") as [ts|] eqn:Hts.
  - by rewrite (update_match_odds_lookup _ _ ts).
  - by rewrite update_match_odds_raised.
Qed.

Lemma update_match_odds_returns existing_match new_match :
  is_Some (new_match !! "timestamp") →
  ∃ c, (update_match_odds existing_match new_match).2 = Returned c.
Proof.
  intros [ts Hts].
  destruct (update_match_odds_flag existing_match new_match ts Hts) as (c & Hc & _).
  by exists c.
Qed.

(** Merging a record the stored match already agrees with changes nothing. *)
Lemma update_match_odds_noop existing_match new_match :
  is_Some (new_match !! "timestamp") →
  (∀ key v, new_match !! key = Some v → existing_match !! key = Some v) →
  update_match_odds existing_match new_match = (existing_match, Returned false).
Proof.
  intros [ts Hts] Hsub.
  destruct (update_match_odds_flag existing_match new_match ts Hts)
    as (b & Hb & Hiff).
  pose proof (update_match_odds_lookup existing_match new_match ts) as Hl.
  destruct (update_match_odds existing_match new_match) as [e' r]. simpl in *.
  subst r. f_equal.
  - apply map_eq. intros key. rewrite (Hl key Hts).
    case_decide; [done|].
    destruct (new_match !! key) eqn:Hk; [|done]. symmetry. by apply Hsub.
  - f_equal. destruct b; [|done]. destruct Hiff as [Hiff _].
    destruct (Hiff eq_refl) as (key & v & Hv & _ & Hne).
    by apply Hsub in Hv.
Qed.

(** *** Merging one record: classification, frame, identity fields *)

(** C3 (as amended). For an incoming record that carries its timestamp,
    the merge returns, and it reports a change exactly when the record
    carries a [score], a [status] or an [odd_] field whose value differs
    from the stored one (a field the stored entity lacks counts as
    differing); every field of the record other than [match_id] is
    stored, whether or not it counts for the classification. *)
Theorem update_match_odds_classifies_by_score_status_odds
    (existing_match new_match : match_data) (ts : value) :
  new_match !! "timestamp" = Some ts →
  ∃ odds_changed,
    (update_match_odds existing_match new_match).2 = Returned odds_changed
    ∧ (odds_changed = true ↔
       ∃ key v, new_match !! key = Some v ∧ counted key = true
                ∧ existing_match !! key ≠ Some v)
    ∧ (∀ key v, new_match !! key = Some v → key ≠ "match_id" →
         (update_match_odds existing_match new_match).1 !! key = Some v).
Proof.
  intros Hts.
  destruct (update_match_odds_flag existing_match new_match ts Hts) as (c & Hc & Hiff).
  exists c. split; [done|]. split; [done|].
  intros key v Hkey Hne. rewrite (update_match_odds_lookup _ _ ts _ Hts).
  rewrite decide_False by done. by rewrite Hkey.
Qed.

(** C7. A field the stored entity holds and the incoming record lacks
    holds the same value after the merge, however the merge ended. *)
Theorem update_match_odds_keeps_absent_fields
    (existing_match new_match : match_data) (key : string) (v : value) :
  existing_match !! key = Some v →
  new_match !! key = None →
  (update_match_odds existing_match new_match).1 !! key = Some v.
Proof.
  intros He Hn. destruct (new_match !! "timestamp") as [ts|] eqn:Hts.
  - rewrite (update_match_odds_lookup _ _ ts _ Hts).
    case_decide; [done|]. by rewrite Hn.
  - by rewrite update_match_odds_raised.
Qed.

(** C8 (as amended). A merge never writes [match_id]; the other identity
    fields are not protected: whenever the merge returns, [league],
    [team1], [team2], [sport] and [country] hold the value the incoming
    record carries for them. *)
Theorem update_match_odds_protects_match_id_only
    (existing_match new_match : match_data) :
  (update_match_odds existing_match new_match).1 !! "match_id"
    = existing_match !! "match_id"
  ∧ (∀ key v, key ∈ identity_fields →
       is_Some (new_match !! "timestamp") →
       new_match !! key = Some v →
       (update_match_odds existing_match new_match).1 !! key = Some v).
Proof.
  split.
  - apply update_match_odds_id.
  - intros key v Hin [ts Hts] Hkey.
    rewrite (update_match_odds_lookup _ _ ts _ Hts), Hkey.
    rewrite decide_False; [done|]. intros ->.
    unfold identity_fields in Hin. set_solver.
Qed.

(** ** Facts about the reconciliation loop *)

(** *** Ids and positions *)

Lemma elem_of_ids l id : id ∈ ids l ↔ ∃ m, m ∈ l ∧ get_id m = Some id.
Proof. unfold ids. apply list_elem_of_omap. Qed.

Lemma ids_ext l1 l2 : get_id <$> l1 = get_id <$> l2 → ids l1 = ids l2.
Proof.
  unfold ids. revert l2. induction l1 as [|m1 r1 IH]; intros [|m2 r2]; simpl; try done.
  intros [= Hm Hr]. rewrite Hm. destruct (get_id m2); [f_equal|]; by apply IH.
Qed.

Lemma ids_app l1 l2 : ids (l1 ++ l2) = ids l1 ++ ids l2.
Proof. apply omap_app. Qed.

Lemma unique_by_id l m1 m2 id :
  NoDup (ids l) → m1 ∈ l → m2 ∈ l →
  get_id m1 = Some id → get_id m2 = Some id → m1 = m2.
Proof.
  induction l as [|a rest IH]; intros Hnd H1 H2 Hid1 Hid2.
  { by apply elem_of_nil in H1. }
  unfold ids in Hnd. simpl in Hnd. fold (ids rest) in Hnd.
  apply elem_of_cons in H1 as [->|H1]; apply elem_of_cons in H2 as [->|H2].
  - done.
  - rewrite Hid1 in Hnd. apply NoDup_cons in Hnd as [Hn _].
    exfalso. apply Hn. apply elem_of_ids. by exists m2.
  - rewrite Hid2 in Hnd. apply NoDup_cons in Hnd as [Hn _].
    exfalso. apply Hn. apply elem_of_ids. by exists m1.
  - apply IH; try done. destruct (get_id a); [by apply NoDup_cons in Hnd as [_ ?]|done].
Qed.

Lemma unique_position l a b x y id :
  NoDup (ids l) → l !! a = Some x → l !! b = Some y →
  get_id x = Some id → get_id y = Some id → a = b.
Proof.
  intros Hnd Ha Hb Hx Hy.
  assert (Hxy : x = y).
  { eapply (unique_by_id l); try done; by eapply list_elem_of_lookup_2. }
  subst y. revert a b Ha Hb.
  induction l as [|m rest IH]; intros a b Ha Hb; [done|].
  unfold ids in Hnd. simpl in Hnd. fold (ids rest) in Hnd.
  assert (Hhead : m = x → x ∉ rest).
  { intros -> Hin. rewrite Hx in Hnd. apply NoDup_cons in Hnd as [Hn _].
    apply Hn. apply elem_of_ids. by exists x. }
  assert (Hrest : NoDup (ids rest)).
  { destruct (get_id m); [by apply NoDup_cons in Hnd as [_ ?]|done]. }
  destruct a as [|a], b as [|b]; simpl in *.
  - done.
  - injection Ha as ->. exfalso. apply Hhead; [done|]. by eapply list_elem_of_lookup_2.
  - injection Hb as ->. exfalso. apply Hhead; [done|]. by eapply list_elem_of_lookup_2.
  - f_equal. by apply IH.
Qed.

Lemma hashable_ids_ext l1 l2 :
  get_id <$> l1 = get_id <$> l2 → hashable_ids l1 → hashable_ids l2.
Proof.
  unfold hashable_ids. revert l2.
  induction l1 as [|m1 r1 IH]; intros [|m2 r2]; simpl; try done.
  intros [= Hm Hr] Hall. apply Forall_cons in Hall as [H1 Hall].
  apply Forall_cons. split; [|by apply IH]. by rewrite <- Hm.
Qed.

Lemma fresh_ids_app stored l1 l2 :
  fresh_ids stored (l1 ++ l2) = fresh_ids stored l1 ++ fresh_ids stored l2.
Proof. unfold fresh_ids. by rewrite ids_app, filter_app. Qed.

Lemma fresh_ids_not_stored stored l id :
  id ∈ fresh_ids stored l → id ∉ ids stored.
Proof. unfold fresh_ids. rewrite list_elem_of_filter. by intros [? _]. Qed.

Lemma last_index_None l id :
  last_index l id = None ↔ id ∉ ids l.
Proof.
  unfold ids. induction l as [|m rest IH]; simpl.
  - split; [intros _; apply not_elem_of_nil | done].
  - destruct (last_index rest id) as [k|].
    + split; [done|]. intros Hn. destruct IH as [_ IH].
      destruct (get_id m); [rewrite not_elem_of_cons in Hn|]; naive_solver.
    + destruct IH as [IH _]. specialize (IH eq_refl).
      destruct (get_id m) as [x|] eqn:Hx.
      * case_decide as Hd.
        -- injection Hd as ->. split; [done|]. intros Hn. exfalso. apply Hn. by left.
        -- split; [|done]. intros _. rewrite not_elem_of_cons. split; [congruence|done].
      * by case_decide.
Qed.

Lemma last_index_Some l id k :
  last_index l id = Some k →
  ∃ m, l !! k = Some m ∧ get_id m = Some id.
Proof.
  revert k. induction l as [|m rest IH]; intros k; simpl; [done|].
  destruct (last_index rest id) as [k'|].
  - intros [= <-]. by apply IH.
  - case_decide; [|done]. intros [= <-]. by exists m.
Qed.

Lemma last_index_is_Some l id : id ∈ ids l → is_Some (last_index l id).
Proof.
  intros Hin. destruct (last_index l id) eqn:Hl; [by eexists|].
  by apply last_index_None in Hl.
Qed.

Lemma last_index_unique l id k m :
  NoDup (ids l) → m ∈ l → get_id m = Some id →
  last_index l id = Some k → l !! k = Some m.
Proof.
  intros Hnd Hin Hid Hk. destruct (last_index_Some _ _ _ Hk) as (m' & Hm' & Hid').
  rewrite Hm'. f_equal. eapply unique_by_id; try done.
  by eapply list_elem_of_lookup_2.
Qed.

Lemma last_index_app l1 l2 id :
  last_index (l1 ++ l2) id =
  match last_index l2 id with
  | Some k => Some (length l1 + k)
  | None => last_index l1 id
  end.
Proof.
  induction l1 as [|m rest IH]; simpl.
  - by destruct (last_index l2 id).
  - rewrite IH. by destruct (last_index l2 id).
Qed.

Lemma last_index_ext l1 l2 id :
  get_id <$> l1 = get_id <$> l2 → last_index l1 id = last_index l2 id.
Proof.
  revert l2. induction l1 as [|m1 r1 IH]; intros [|m2 r2]; simpl; try done.
  intros [= Hm Hr]. rewrite (IH _ Hr), Hm. done.
Qed.

(** *** The lookup map *)

Lemma fresh_cases (live_map : gmap value nat) m :
  fresh live_map m = true ↔ ∃ id, get_id m = Some id ∧ live_map !! id = None.
Proof.
  unfold fresh. destruct (get_id m) as [id|].
  - rewrite bool_decide_eq_true. naive_solver.
  - naive_solver.
Qed.

(** The map built from a store sends an id to the last stored record
    that carries it. *)
Lemma build_map_spec stored i acc live_map :
  build_map stored i acc = Returned live_map →
  ∀ id, live_map !! id =
        match last_index stored id with
        | Some k => Some (i + k)
        | None => acc !! id
        end.
Proof.
  revert i acc. induction stored as [|m rest IH]; intros i acc; simpl.
  - by intros [= ->].
  - destruct (get_id m) as [x|] eqn:Hx.
    + destruct (hashable x); [|done]. intros Hb id.
      rewrite (IH _ _ Hb id). destruct (last_index rest id) as [k|].
      * f_equal. lia.
      * rewrite lookup_insert. case_decide as Hd.
        -- subst x. rewrite decide_True by done. f_equal. lia.
        -- rewrite decide_False by congruence. done.
    + intros Hb id. rewrite (IH _ _ Hb id). destruct (last_index rest id) as [k|].
      * f_equal. lia.
      * by rewrite decide_False.
Qed.

Lemma build_map_returned stored i acc :
  hashable_ids stored → ∃ live_map, build_map stored i acc = Returned live_map.
Proof.
  intros Hh. revert i acc. induction Hh as [|m rest Hm _ IH]; intros i acc; simpl.
  - by eexists.
  - destruct (get_id m) as [x|]; [|apply IH].
    rewrite (Hm x eq_refl). apply IH.
Qed.

Lemma build_map_lookup stored live_map id :
  build_map stored 0 ∅ = Returned live_map →
  live_map !! id = last_index stored id.
Proof.
  intros Hb. rewrite (build_map_spec _ _ _ _ Hb id).
  by destruct (last_index stored id).
Qed.

Lemma build_map_bound stored live_map id j :
  build_map stored 0 ∅ = Returned live_map →
  live_map !! id = Some j → j < length stored.
Proof.
  intros Hb Hj. rewrite (build_map_lookup _ _ _ Hb) in Hj.
  apply last_index_Some in Hj as (m & Hm & _). by apply lookup_lt_Some in Hm.
Qed.

Lemma build_map_points_to_ids stored live_map :
  build_map stored 0 ∅ = Returned live_map → points_to_ids live_map stored.
Proof.
  intros Hb id j Hj. rewrite (build_map_lookup _ _ _ Hb) in Hj.
  by apply last_index_Some.
Qed.

(** The ids of the appended records are the fresh ids of the snapshot. *)
Lemma ids_filter_fresh stored live_map l :
  build_map stored 0 ∅ = Returned live_map →
  ids (filter (λ m, fresh live_map m = true) l) = fresh_ids stored l.
Proof.
  intros Hb. unfold fresh_ids, ids. induction l as [|m rest IH]; [done|].
  simpl. destruct (get_id m) as [id|] eqn:Hid.
  - destruct (decide (id ∈ omap get_id stored)) as [Hin|Hout].
    + rewrite filter_cons_False.
      2:{ rewrite fresh_cases. intros (id' & Hid' & Hnone).
          rewrite (build_map_lookup _ _ _ Hb), last_index_None in Hnone.
          unfold ids in Hnone. congruence. }
      rewrite filter_cons_False by (intros Hn; by apply Hn). done.
    + rewrite filter_cons_True.
      2:{ rewrite fresh_cases. exists id. split; [done|].
          by rewrite (build_map_lookup _ _ _ Hb), last_index_None. }
      rewrite filter_cons_True by done. simpl. rewrite Hid. by f_equal.
  - rewrite filter_cons_False; [done|].
    rewrite fresh_cases. intros (id' & Hid' & _). congruence.
Qed.

(** *** The loop, for a fixed lookup map *)

Section loop_facts.

Variable live_map : gmap value nat.

(** An iteration either leaves the store alone, or replaces the object the
    map points to by its merged state, or appends the new record. *)
Lemma update_event_cases new_match st st' r :
  update_event live_map new_match st = (st', r) →
  (st' = st ∧ (r = Returned tt → get_id new_match = None))
  ∨ (∃ id i existing_match,
       get_id new_match = Some id ∧ live_map !! id = Some i
       ∧ events st !! i = Some existing_match
       ∧ events st' = <[i := (update_match_odds existing_match new_match).1]> (events st)
       ∧ new_matches st' = new_matches st
       ∧ (r = Returned tt → ∃ c,
            (update_match_odds existing_match new_match).2 = Returned c
            ∧ changed_matches st' =
              if c then changed_matches st ++ [i] else changed_matches st))
  ∨ (∃ id, get_id new_match = Some id ∧ live_map !! id = None
       ∧ events st' = events st ++ [new_match]
       ∧ new_matches st' = new_matches st ++ [new_match]
       ∧ changed_matches st' = changed_matches st
       ∧ r = Returned tt).
Proof.
  unfold update_event. destruct (get_id new_match) as [id|] eqn:Hid.
  2:{ intros [= <- <-]. by left. }
  destruct (hashable id).
  2:{ intros [= <- <-]. left. by split. }
  destruct (live_map !! id) as [i|] eqn:Hi.
  - destruct (events st !! i) as [e|] eqn:He.
    2:{ intros [= <- <-]. left. by split. }
    destruct (update_match_odds e new_match) as [e' [c|x]] eqn:Hu;
      intros [= <- <-]; right; left; exists id, i, e; rewrite Hu; simpl;
      repeat split; try done.
    intros _. by exists c.
  - intros [= <- <-]. right; right. by exists id.
Qed.

(** Shape of the store after the loop, whatever way it ended: below the
    bound [n] of the map the records keep their ids; above it the loop has
    added the fresh records of the part of the snapshot it went through. *)
Lemma update_events_shape n parsed st st' r :
  update_events live_map parsed st = (st', r) →
  n ≤ length (events st) →
  (∀ id j, live_map !! id = Some j → j < n) →
  ∃ seen,
    seen `prefix_of` parsed
    ∧ (r = Returned tt → seen = parsed)
    ∧ get_id <$> take n (events st') = get_id <$> take n (events st)
    ∧ drop n (events st') =
      drop n (events st) ++ filter (λ m, fresh live_map m = true) seen
    ∧ new_matches st' =
      new_matches st ++ filter (λ m, fresh live_map m = true) seen.
Proof.
  intros Hloop Hn Hbound. revert st Hloop Hn.
  induction parsed as [|m rest IH]; intros st; simpl.
  - intros [= <- <-] _. exists []. rewrite !app_nil_r. by repeat split.
  - destruct (update_event live_map m st) as [st1 r1] eqn:Hstep.
    apply update_event_cases in Hstep.
    destruct r1 as [[]|x].
    + intros Hloop Hn.
      destruct Hstep as [[-> Hnone]|[(id & i & e & Hid & Hi & He & Hev & Hnew & _)
                                    |(id & Hid & Hi & Hev & Hnew & _)]].
      * destruct (IH st Hloop Hn) as (seen & Hpre & Hret & Hids & Hdrop & Hnm).
        exists (m :: seen). rewrite filter_cons_False.
        2:{ rewrite fresh_cases. intros (id & Hid & _). by rewrite Hnone in Hid. }
        repeat split; try done.
        -- by apply prefix_cons.
        -- intros Hr. by rewrite Hret.
      * assert (Hlen : n ≤ length (events st1)).
        { by rewrite Hev, length_insert. }
        destruct (IH st1 Hloop Hlen) as (seen & Hpre & Hret & Hids & Hdrop & Hnm).
        exists (m :: seen). rewrite filter_cons_False.
        2:{ rewrite fresh_cases. intros (id' & Hid' & Hi'). congruence. }
        pose proof (Hbound _ _ Hi) as Hlt.
        repeat split.
        -- by apply prefix_cons.
        -- intros Hr. by rewrite Hret.
        -- rewrite Hids, Hev. rewrite take_insert_lt by done.
           rewrite list_fmap_insert, update_match_odds_id.
           apply list_insert_id. rewrite list_lookup_fmap, lookup_take_lt by done.
           by rewrite He.
        -- rewrite Hdrop, Hev. by rewrite drop_insert_lt.
        -- by rewrite Hnm, Hnew.
      * assert (Hlen : n ≤ length (events st1)).
        { rewrite Hev, length_app. lia. }
        destruct (IH st1 Hloop Hlen) as (seen & Hpre & Hret & Hids & Hdrop & Hnm).
        exists (m :: seen). rewrite filter_cons_True.
        2:{ rewrite fresh_cases. by exists id. }
        repeat split.
        -- by apply prefix_cons.
        -- intros Hr. by rewrite Hret.
        -- rewrite Hids, Hev. by rewrite take_app_le.
        -- rewrite Hdrop, Hev. rewrite drop_app_le by done. by rewrite <- app_assoc.
        -- rewrite Hnm, Hnew. by rewrite <- app_assoc.
    + intros [= <- <-] Hn. exists []. simpl. rewrite !app_nil_r.
      split; [apply prefix_nil|]. split; [done|].
      destruct Hstep as [[-> _]|[(id & i & e & Hid & Hi & He & Hev & Hnew & _)
                                |(id & _ & _ & _ & _ & _ & [=])]].
      * done.
      * pose proof (Hbound _ _ Hi) as Hlt. rewrite Hev. repeat split; [| |done].
        -- rewrite take_insert_lt by done.
           rewrite list_fmap_insert, update_match_odds_id.
           apply list_insert_id. rewrite list_lookup_fmap, lookup_take_lt by done.
           by rewrite He.
        -- by rewrite drop_insert_lt.
Qed.

Lemma update_event_points_to_ids new_match st st' r :
  update_event live_map new_match st = (st', r) →
  points_to_ids live_map (events st) → points_to_ids live_map (events st').
Proof.
  intros Hstep Hval. apply update_event_cases in Hstep.
  destruct Hstep as [[-> _]|[(id & i & e & Hid & Hi & He & Hev & _)
                            |(id & _ & _ & Hev & _)]]; [done| |].
  - intros id' j Hj. destruct (Hval _ _ Hj) as (e0 & He0 & Hid0). rewrite Hev.
    destruct (decide (i = j)) as [->|Hne].
    + eexists. split.
      * apply list_lookup_insert_eq. by apply lookup_lt_Some in He0.
      * rewrite update_match_odds_id. congruence.
    + exists e0. by rewrite list_lookup_insert_ne.
  - intros id' j Hj. destruct (Hval _ _ Hj) as (e0 & He0 & Hid0). rewrite Hev.
    exists e0. split; [|done]. by apply lookup_app_l_Some.
Qed.

(** A record with another id leaves the object of id [id] alone. *)
Lemma update_event_frame new_match st st' r id j :
  update_event live_map new_match st = (st', r) →
  points_to_ids live_map (events st) →
  live_map !! id = Some j →
  get_id new_match ≠ Some id →
  events st' !! j = events st !! j.
Proof.
  intros Hstep Hval Hj Hne. apply update_event_cases in Hstep.
  destruct (Hval _ _ Hj) as (e0 & He0 & Hid0).
  destruct Hstep as [[-> _]|[(id' & i & e & Hid & Hi & He & Hev & _)
                            |(id' & _ & _ & Hev & _)]]; [done| |].
  - rewrite Hev. apply list_lookup_insert_ne. intros ->.
    destruct (Hval _ _ Hi) as (e1 & He1 & Hid1). congruence.
  - rewrite Hev, He0. by apply lookup_app_l_Some.
Qed.

Lemma update_events_frame parsed st st' r id j :
  update_events live_map parsed st = (st', r) →
  points_to_ids live_map (events st) →
  live_map !! id = Some j →
  last_index parsed id = None →
  events st' !! j = events st !! j.
Proof.
  revert st. induction parsed as [|m rest IH]; intros st; simpl.
  - by intros [= <- <-].
  - destruct (update_event live_map m st) as [st1 r1] eqn:Hstep.
    intros Hloop Hval Hj Hlast.
    assert (last_index rest id = None ∧ get_id m ≠ Some id) as [Hrest Hm].
    { destruct (last_index rest id); [done|]. by case_decide. }
    rewrite <- (update_event_frame _ _ _ _ _ _ Hstep Hval Hj Hm).
    destruct r1 as [[]|x].
    + apply IH; [done| |done|done]. by eapply update_event_points_to_ids.
    + by injection Hloop as <- <-.
Qed.

(** When the iteration for a record with a stored id returns, the stored
    object holds every field of the record. *)
Lemma update_event_reflects new_match st st' id j :
  update_event live_map new_match st = (st', Returned tt) →
  points_to_ids live_map (events st) →
  get_id new_match = Some id →
  live_map !! id = Some j →
  ∃ e', events st' !! j = Some e' ∧ reflects e' new_match.
Proof.
  intros Hstep Hval Hid Hj. apply update_event_cases in Hstep.
  destruct Hstep as [[-> Hn]|[(id' & i & e & Hid' & Hi & He & Hev & _ & Hret)
                             |(id' & Hid' & Hi & _)]].
  - specialize (Hn eq_refl). congruence.
  - assert (id' = id) as -> by congruence. assert (i = j) as -> by congruence.
    destruct (Hret eq_refl) as (c & Hc & _).
    eexists. split.
    { rewrite Hev. apply list_lookup_insert_eq. by apply lookup_lt_Some in He. }
    destruct (new_match !! "timestamp") as [ts|] eqn:Hts.
    2:{ by rewrite update_match_odds_raised in Hc. }
    intros key v Hkey. rewrite (update_match_odds_lookup _ _ ts _ Hts).
    case_decide as Hk; [|by rewrite Hkey]. subst key.
    destruct (Hval _ _ Hj) as (e0 & He0 & Hid0).
    unfold get_id in *. congruence.
  - congruence.
Qed.

(** Later record wins: after a loop that ran to its end, the object of a
    stored id holds every field of the last record of the snapshot with
    that id. *)
Lemma update_events_last parsed st st' id j k new_match :
  update_events live_map parsed st = (st', Returned tt) →
  points_to_ids live_map (events st) →
  live_map !! id = Some j →
  last_index parsed id = Some k →
  parsed !! k = Some new_match →
  ∃ e', events st' !! j = Some e' ∧ reflects e' new_match.
Proof.
  revert st k. induction parsed as [|m rest IH]; intros st k; simpl; [done|].
  destruct (update_event live_map m st) as [st1 r1] eqn:Hstep.
  destruct r1 as [[]|x]; [|done].
  intros Hloop Hval Hj Hlast Hk.
  pose proof (update_event_points_to_ids _ _ _ _ Hstep Hval) as Hval1.
  destruct (last_index rest id) as [k'|] eqn:Hrest.
  - injection Hlast as <-. simpl in Hk. by eapply IH.
  - case_decide as Hm; [|done]. injection Hlast as <-. injection Hk as <-.
    rewrite (update_events_frame _ _ _ _ _ _ Hloop Hval1 Hj Hrest).
    by eapply update_event_reflects.
Qed.

Lemma update_event_returns new_match st :
  points_to_ids live_map (events st) →
  (∀ id, get_id new_match = Some id → hashable id = true) →
  is_Some (new_match !! "timestamp") →
  (update_event live_map new_match st).2 = Returned tt.
Proof.
  intros Hval Hhash Hts. unfold update_event.
  destruct (get_id new_match) as [id|]; [|done].
  rewrite (Hhash id eq_refl).
  destruct (live_map !! id) as [i|] eqn:Hi; [|done].
  destruct (Hval _ _ Hi) as (e & -> & _).
  destruct (update_match_odds_returns e new_match Hts) as (c & Hc).
  destruct (update_match_odds e new_match) as [e' r]. simpl in Hc. by subst r.
Qed.

Lemma update_events_returns parsed st :
  points_to_ids live_map (events st) →
  hashable_ids parsed → timestamped parsed →
  (update_events live_map parsed st).2 = Returned tt.
Proof.
  intros Hval Hhash Hts. revert st Hval.
  induction parsed as [|m rest IH]; intros st Hval; simpl; [done|].
  apply Forall_cons in Hhash as [Hm Hhash]. apply Forall_cons in Hts as [Hmt Hts].
  pose proof (update_event_returns m st Hval Hm Hmt) as Hret.
  destruct (update_event live_map m st) as [st1 r1] eqn:Hstep. simpl in Hret. subst r1.
  apply IH; [done|done|]. by eapply update_event_points_to_ids.
Qed.

(** A snapshot the store already reflects, record by record, goes through
    the loop without any effect. *)
Lemma update_events_noop parsed st :
  (∀ m id, m ∈ parsed → get_id m = Some id →
     hashable id = true ∧ is_Some (m !! "timestamp")
     ∧ ∃ i e, live_map !! id = Some i ∧ events st !! i = Some e ∧ reflects e m) →
  update_events live_map parsed st = (st, Returned tt).
Proof.
  induction parsed as [|m rest IH]; intros Hall; simpl; [done|].
  assert (update_event live_map m st = (st, Returned tt)) as ->.
  { unfold update_event. destruct (get_id m) as [id|] eqn:Hid; [|done].
    destruct (Hall m id) as (-> & Hts & i & e & -> & He & Hrefl); [by left|done|].
    rewrite He. rewrite (update_match_odds_noop e m Hts Hrefl).
    rewrite list_insert_id by done. by destruct st. }
  apply IH. intros m' id Hin. apply Hall. by right.
Qed.

End loop_facts.

(** *** The whole cycle *)

(** The store after a cycle, whatever way the loop ended: the stored
    records in their places, ids unchanged, followed by the fresh records
    of the part of the snapshot the loop went through. *)
Lemma reconcile_shape stored parsed live_map :
  build_map stored 0 ∅ = Returned live_map →
  ∃ kept seen,
    events (reconcile stored parsed).1 =
      kept ++ filter (λ m, fresh live_map m = true) seen
    ∧ new_matches (reconcile stored parsed).1 =
      filter (λ m, fresh live_map m = true) seen
    ∧ get_id <$> kept = get_id <$> stored
    ∧ length kept = length stored
    ∧ seen `prefix_of` parsed
    ∧ ((reconcile stored parsed).2 = Returned tt → seen = parsed).
Proof.
  intros Hb. unfold reconcile. rewrite Hb.
  destruct (update_events live_map parsed (LoopState stored [] [])) as [st' r] eqn:Hloop.
  destruct (update_events_shape live_map (length stored) _ _ _ _ Hloop)
    as (seen & Hpre & Hret & Hids & Hdrop & Hnm).
  { done. }
  { intros id j. by apply build_map_bound. }
  simpl in *. rewrite firstn_all in Hids. rewrite drop_all in Hdrop. simpl in Hdrop.
  exists (take (length stored) (events st')), seen.
  rewrite <- Hdrop, take_drop. repeat split; try done.
  - by rewrite Hdrop.
  - rewrite <- (length_fmap get_id), Hids. by rewrite length_fmap.
Qed.

Lemma reconcile_raised_build stored parsed e :
  build_map stored 0 ∅ = Raised e →
  reconcile stored parsed = (LoopState stored [] [], Raised e).
Proof. intros Hb. unfold reconcile. by rewrite Hb. Qed.

Lemma reconcile_returns stored parsed :
  hashable_ids stored → hashable_ids parsed → timestamped parsed →
  (reconcile stored parsed).2 = Returned tt.
Proof.
  intros Hs Hp Ht. destruct (build_map_returned stored 0 ∅ Hs) as (live_map & Hb).
  unfold reconcile. rewrite Hb. apply update_events_returns; try done.
  by apply build_map_points_to_ids.
Qed.

(** C4 (as amended). A cycle keeps the store free of duplicate ids as long
    as the records of the snapshot whose id is not yet stored carry
    pairwise distinct ids; this holds for the store the cycle leaves
    behind whether the loop ran to its end or an exception cut it short. *)
Theorem reconcile_preserves_unique_ids (stored parsed : list match_data) :
  unique_ids stored →
  NoDup (fresh_ids stored parsed) →
  unique_ids (events (reconcile stored parsed).1).
Proof.
  intros Huniq Hfresh. unfold unique_ids in *.
  destruct (build_map stored 0 ∅) as [live_map|e] eqn:Hb.
  2:{ by rewrite (reconcile_raised_build _ _ _ Hb). }
  destruct (reconcile_shape stored parsed live_map Hb)
    as (kept & seen & -> & _ & Hids & _ & [rest ->] & _).
  rewrite ids_app, (ids_ext _ _ Hids), (ids_filter_fresh stored _ _ Hb).
  rewrite fresh_ids_app in Hfresh. apply NoDup_app in Hfresh as (Hseen & _ & _).
  apply NoDup_app. repeat split; [done| |done].
  intros id Hin Hin'. by apply fresh_ids_not_stored in Hin'.
Qed.

(** C2 (as amended). For a snapshot whose records carry pairwise distinct
    ids (and, as every parsed record does, a timestamp and a hashable id),
    reconciling it a second time right after the first classifies nothing
    as created or changed and leaves the store as the first
    reconciliation left it. *)
Theorem reconcile_idempotent (stored parsed : list match_data) :
  hashable_ids stored → hashable_ids parsed → timestamped parsed →
  NoDup (ids parsed) →
  ∃ st1,
    reconcile stored parsed = (st1, Returned tt)
    ∧ reconcile (events st1) parsed = (LoopState (events st1) [] [], Returned tt).
Proof.
  intros Hs Hp Ht Hnd.
  destruct (build_map_returned stored 0 ∅ Hs) as (live_map & Hb).
  pose proof (reconcile_returns stored parsed Hs Hp Ht) as Hret.
  destruct (reconcile_shape stored parsed live_map Hb)
    as (kept & seen & Hev & _ & Hids & Hlen & _ & Hseen).
  specialize (Hseen Hret). subst seen.
  assert (Hloop : update_events live_map parsed (LoopState stored [] [])
                  = ((reconcile stored parsed).1, Returned tt)).
  { unfold reconcile in *. rewrite Hb in *.
    by destruct (update_events live_map parsed (LoopState stored [] [])) as [? []]; simplify_eq/=. }
  destruct (reconcile stored parsed) as [st1 r1]. simpl in *. subst r1.
  exists st1. split; [done|].
  set (added := filter (λ m, fresh live_map m = true) parsed) in *.
  assert (Hh1 : hashable_ids (events st1)).
  { rewrite Hev. apply Forall_app. split.
    - by eapply hashable_ids_ext.
    - apply Forall_forall. intros m Hm. apply list_elem_of_filter in Hm as [_ Hm].
      by eapply Forall_forall in Hp. }
  destruct (build_map_returned (events st1) 0 ∅ Hh1) as (live_map1 & Hb1).
  unfold reconcile. rewrite Hb1.
  change (LoopState (events st1) [] [])
    with (LoopState (events (LoopState (events st1) [] [])) [] []) at 2.
  apply update_events_noop. simpl.
  intros m id Hin Hid.
  split; [exact (proj1 (Forall_forall _ _) Hp m Hin id Hid)|].
  split; [exact (proj1 (Forall_forall _ _) Ht m Hin)|].
  rewrite (build_map_lookup _ _ _ Hb1), Hev, last_index_app.
  assert (Hidp : id ∈ ids parsed) by (apply elem_of_ids; by exists m).
  destruct (live_map !! id) as [j|] eqn:Hj.
  - assert (last_index added id = None) as ->.
    { apply last_index_None. unfold added. rewrite (ids_filter_fresh stored _ _ Hb).
      intros Hf. apply fresh_ids_not_stored in Hf.
      apply last_index_None in Hf. rewrite <- (build_map_lookup _ _ _ Hb) in Hf. congruence. }
    rewrite (last_index_ext _ _ _ Hids), <- (build_map_lookup _ _ _ Hb), Hj.
    destruct (last_index_is_Some _ _ Hidp) as [k Hk].
    destruct (update_events_last _ _ _ _ id j k m Hloop) as (e' & He' & Hrefl);
      try done.
    + by apply build_map_points_to_ids.
    + by eapply last_index_unique.
    + exists j, e'. rewrite <- Hev. done.
  - assert (Hadded : m ∈ added).
    { apply list_elem_of_filter. split; [|done]. apply fresh_cases. by exists id. }
    assert (Hida : id ∈ ids added) by (apply elem_of_ids; by exists m).
    destruct (last_index_is_Some _ _ Hida) as [k Hk]. rewrite Hk.
    destruct (last_index_Some _ _ _ Hk) as (m' & Hm' & Hid').
    assert (m' = m) as ->.
    { eapply (unique_by_id parsed); try done.
      apply list_elem_of_lookup_2 in Hm'. by apply list_elem_of_filter in Hm' as [_ ?]. }
    exists (length kept + k), m. split; [done|]. split; [|by intros ??].
    by rewrite lookup_app_r, Nat.add_comm, Nat.add_sub by lia.
Qed.

Lemma last_index_filter (P : match_data → Prop) `{!∀ m, Decision (P m)}
    (l : list match_data) (id : value) (k : nat) (m : match_data) :
  last_index l id = Some k → l !! k = Some m → P m →
  ∃ k', last_index (filter P l) id = Some k' ∧ filter P l !! k' = Some m.
Proof.
  revert k. induction l as [|a rest IH]; intros k Hk Hm HP; [done|].
  simpl in Hk. destruct (last_index rest id) as [k0|] eqn:Hrest.
  - injection Hk as <-. simpl in Hm.
    destruct (IH k0 eq_refl Hm HP) as (k' & Hk' & Hm').
    destruct (decide (P a)).
    + rewrite filter_cons_True by done. exists (S k'). simpl. by rewrite Hk'.
    + rewrite filter_cons_False by done. by exists k'.
  - case_decide as Ha; [|done]. injection Hk as <-. injection Hm as ->.
    rewrite filter_cons_True by done. exists 0. split; [|done]. simpl.
    assert (last_index (filter P rest) id = None) as ->.
    { apply last_index_None. apply last_index_None in Hrest.
      intros Hin. apply Hrest. apply elem_of_ids in Hin as (x & Hx & Hidx).
      apply list_elem_of_filter in Hx as [_ Hx]. apply elem_of_ids. by exists x. }
    by rewrite decide_True.
Qed.

(** C5 (as amended). Later record wins, for every id: after a
    reconciliation that ran to its end, the entity an id of the snapshot
    maps to from then on, the last entity of the store with that id,
    carries every field of the last record of the snapshot with that id.
    For an id that was stored this entity stands where it stood before;
    and when the store held one entity per id and held this id, it is the
    only entity with that id afterwards. *)
Theorem later_record_wins
    (stored parsed : list match_data) (st' : loop_state) (id : value)
    (k : nat) (new_match : match_data) :
  reconcile stored parsed = (st', Returned tt) →
  last_index parsed id = Some k →
  parsed !! k = Some new_match →
  (∃ j e', last_index (events st') id = Some j
           ∧ events st' !! j = Some e' ∧ reflects e' new_match)
  ∧ (∀ j, last_index stored id = Some j → last_index (events st') id = Some j)
  ∧ (unique_ids stored → id ∈ ids stored →
     ∀ j' e, events st' !! j' = Some e → get_id e = Some id →
             last_index (events st') id = Some j').
Proof.
  intros Hrec Hk Hnew.
  destruct (build_map stored 0 ∅) as [live_map|x] eqn:Hb.
  2:{ by rewrite (reconcile_raised_build _ _ _ Hb) in Hrec. }
  destruct (reconcile_shape stored parsed live_map Hb)
    as (kept & seen & Hev & _ & Hids & Hlen & _ & Hseen).
  rewrite Hrec in Hev, Hseen. simpl in Hev, Hseen. specialize (Hseen eq_refl). subst seen.
  set (added := filter (λ m, fresh live_map m = true) parsed) in *.
  assert (Hidn : get_id new_match = Some id).
  { destruct (last_index_Some _ _ _ Hk) as (m & Hm & Hid). congruence. }
  assert (Hplace : ∀ j, last_index stored id = Some j →
                        last_index (events st') id = Some j).
  { intros j Hj. rewrite Hev, last_index_app.
    assert (last_index added id = None) as ->.
    { apply last_index_None. unfold added. rewrite (ids_filter_fresh stored _ _ Hb).
      intros Hf. apply fresh_ids_not_stored in Hf.
      apply last_index_None in Hf. congruence. }
    by rewrite (last_index_ext _ _ _ Hids). }
  split; [|split; [done|]].
  - destruct (live_map !! id) as [j|] eqn:Hlm.
    + unfold reconcile in Hrec. rewrite Hb in Hrec.
      destruct (update_events_last _ _ _ _ id j k new_match Hrec)
        as (e' & He' & Hrefl); try done.
      { by apply build_map_points_to_ids. }
      exists j, e'. split; [|done]. apply Hplace.
      by rewrite <- (build_map_lookup _ _ _ Hb).
    + assert (Hfresh : fresh live_map new_match = true).
      { apply fresh_cases. by exists id. }
      destruct (last_index_filter (λ m, fresh live_map m = true) parsed id k
                  new_match Hk Hnew Hfresh) as (k' & Hk' & Hm').
      fold added in Hk', Hm'.
      exists (length kept + k'), new_match. rewrite Hev, last_index_app, Hk'.
      split; [done|]. split; [|by intros ??].
      by rewrite lookup_app_r, Nat.add_comm, Nat.add_sub by lia.
  - intros Huniq Hstored j' e He Hide.
    destruct (last_index_is_Some _ _ Hstored) as [j Hj].
    rewrite (Hplace j Hj). f_equal. symmetry. rewrite Hev in He.
    destruct (decide (j' < length kept)) as [Hlt|Hge].
    + rewrite lookup_app_l in He by done.
      assert (Hs : (get_id <$> stored) !! j' = Some (Some id)).
      { rewrite <- Hids, list_lookup_fmap, He. simpl. by rewrite Hide. }
      rewrite list_lookup_fmap in Hs.
      destruct (stored !! j') as [e0|] eqn:He0; [|done]. simpl in Hs.
      destruct (last_index_Some _ _ _ Hj) as (ej & Hej & Hidj).
      eapply (unique_position stored); try done. congruence.
    + rewrite lookup_app_r in He by lia.
      apply list_elem_of_lookup_2, list_elem_of_filter in He as [Hf _].
      apply fresh_cases in Hf as (id' & Hid' & Hnone).
      assert (id' = id) as -> by congruence.
      rewrite (build_map_lookup _ _ _ Hb) in Hnone. congruence.
Qed.

(** ** Retention *)

Lemma ltb_negb_leb (s1 s2 : string) : String.ltb s1 s2 = negb (String.leb s2 s1).
Proof.
  unfold String.ltb, String.leb. rewrite (String.compare_antisym s2 s1).
  by destruct (String.compare s1 s2).
Qed.

Lemma leb_refl (s : string) : String.leb s s = true.
Proof.
  unfold String.leb. pose proof (String.compare_antisym s s) as Ha.
  by destruct (String.compare s s).
Qed.

Lemma keeps_text cutoff_str m :
  (∀ v, m !! "timestamp" = Some v → ∃ ts, v = VStr ts) →
  keeps cutoff_str m = Returned (negb (at_or_before cutoff_str m)).
Proof.
  intros Htxt. unfold keeps, at_or_before.
  destruct (m !! "timestamp") as [v|]; [|done].
  destruct (Htxt v eq_refl) as [ts ->]. simpl. by rewrite ltb_negb_leb.
Qed.

Lemma trim_filter cutoff_str events :
  text_timestamps events →
  trim cutoff_str events
  = Returned (filter (λ m, at_or_before cutoff_str m = false) events).
Proof.
  induction 1 as [|m rest Hm _ IH]; simpl; [done|].
  rewrite (keeps_text _ _ Hm), IH.
  destruct (at_or_before cutoff_str m) eqn:Hb; simpl.
  - by rewrite filter_cons_False by congruence.
  - by rewrite filter_cons_True.
Qed.

(** C6 (as amended). The trim keeps a record exactly when it has no
    timestamp or a timestamp strictly after the cutoff: it removes the
    records whose timestamp is before the cutoff and also those whose
    timestamp equals it. *)
Theorem cleanup_old_data_removes_at_or_before_cutoff
    (cutoff_str : string) (s : stores) :
  text_timestamps (live_events s) →
  text_timestamps (upcoming_events s) →
  cleanup_old_data cutoff_str s
  = (Stores (filter (λ m, at_or_before cutoff_str m = false) (live_events s))
            (filter (λ m, at_or_before cutoff_str m = false) (upcoming_events s)),
     Returned tt)
  ∧ (∀ m, m !! "timestamp" = Some (VStr cutoff_str) →
       at_or_before cutoff_str m = true)
  ∧ (∀ m ts, m !! "timestamp" = Some (VStr ts) →
       (at_or_before cutoff_str m = false ↔ String.ltb cutoff_str ts = true)).
Proof.
  intros Hl Hu. split; [|split].
  - unfold cleanup_old_data.
    assert (Hlive : match live_events s with
                    | [] => Returned []
                    | _ => trim cutoff_str (live_events s)
                    end = Returned (filter (λ m, at_or_before cutoff_str m = false)
                                      (live_events s))).
    { rewrite <- (trim_filter _ _ Hl). by destruct (live_events s). }
    assert (Hup : match upcoming_events s with
                  | [] => Returned []
                  | _ => trim cutoff_str (upcoming_events s)
                  end = Returned (filter (λ m, at_or_before cutoff_str m = false)
                                    (upcoming_events s))).
    { rewrite <- (trim_filter _ _ Hu). by destruct (upcoming_events s). }
    by rewrite Hlive, Hup.
  - intros m Hm. unfold at_or_before. rewrite Hm. apply leb_refl.
  - intros m ts Hm. unfold at_or_before. rewrite Hm, ltb_negb_leb.
    by destruct (String.leb ts cutoff_str).
Qed.

(** ** Match ids *)

Lemma extract_odds_lookup odds (d : match_data) key :
  String.prefix "odd_" key = false →
  extract_odds odds d !! key = d !! key.
Proof.
  intros Hkey. unfold extract_odds. revert d.
  induction odds as [|[k v] rest IH]; intros d; simpl; [done|].
  rewrite IH. apply lookup_insert_ne. intros <-. simpl in Hkey.
  by destruct k.
Qed.

Lemma set_opt_lookup_ne key' (o : option string) (d : match_data) key :
  key' ≠ key → set_opt key' o d !! key = d !! key.
Proof. intros Hne. unfold set_opt. destruct o; [|done]. by apply lookup_insert_ne. Qed.

Lemma parse_live_match_id sec now match_index c :
  parse_live_match sec now match_index c !! "match_id"
  = Some (VStr (match_id_of (sport_name sec) (league_name sec)
                  (live_teams c) match_index)).
Proof.
  unfold parse_live_match.
  destruct (live_icons c) as [[video statistics]|];
    rewrite ?lookup_insert_ne by done;
    rewrite set_opt_lookup_ne by done;
    rewrite extract_odds_lookup by done;
    apply lookup_insert_eq.
Qed.

Lemma parse_upcoming_match_id sec now current_date item_index c :
  parse_upcoming_match sec now current_date item_index c !! "match_id"
  = Some (VStr (match_id_of (sport_name sec) (league_name sec)
                  (upcoming_teams c) item_index)).
Proof.
  unfold parse_upcoming_match.
  rewrite !set_opt_lookup_ne by done.
  rewrite extract_odds_lookup by done.
  apply lookup_insert_eq.
Qed.

(** C9. Two records parsed from sections with the same sport and league
    names and with the same two team names get the same [match_id],
    whatever else differs between them (time of the parse, position,
    country, status, scores, odds, links): the id is then built from the
    four names alone, and the position only enters it when the team names
    are missing. *)
Theorem match_id_determined_by_identity_fields
    (sec1 sec2 : section_info) (team1 team2 : string) :
  sport_name sec1 = sport_name sec2 →
  league_name sec1 = league_name sec2 →
  (∀ now1 now2 i1 i2 c1 c2,
     live_teams c1 = Some (team1, team2) →
     live_teams c2 = Some (team1, team2) →
     parse_live_match sec1 now1 i1 c1 !! "match_id"
       = parse_live_match sec2 now2 i2 c2 !! "match_id"
     ∧ parse_live_match sec1 now1 i1 c1 !! "match_id"
       = Some (VStr (sport_name sec1 +:+ "_" +:+ league_name sec1 +:+ "_"
                     +:+ team1 +:+ "_" +:+ team2)))
  ∧ (∀ now1 now2 date1 date2 i1 i2 c1 c2,
     upcoming_teams c1 = Some (team1, team2) →
     upcoming_teams c2 = Some (team1, team2) →
     parse_upcoming_match sec1 now1 date1 i1 c1 !! "match_id"
       = parse_upcoming_match sec2 now2 date2 i2 c2 !! "match_id"
     ∧ parse_upcoming_match sec1 now1 date1 i1 c1 !! "match_id"
       = Some (VStr (sport_name sec1 +:+ "_" +:+ league_name sec1 +:+ "_"
                     +:+ team1 +:+ "_" +:+ team2))).
Proof.
  intros Hsport Hleague. split.
  - intros now1 now2 i1 i2 c1 c2 H1 H2.
    rewrite !parse_live_match_id, H1, H2, Hsport, Hleague. done.
  - intros now1 now2 date1 date2 i1 i2 c1 c2 H1 H2.
    rewrite !parse_upcoming_match_id, H1, H2, Hsport, Hleague. done.
Qed.

(** The positional id, for comparison: without team names the position
    is part of the id. *)
Lemma match_id_positional sec now match_index c :
  live_teams c = None →
  parse_live_match sec now match_index c !! "match_id"
  = Some (VStr (sport_name sec +:+ "_" +:+ league_name sec +:+ "_"
                +:+ str_of_nat match_index)).
Proof. intros Hnone. by rewrite parse_live_match_id, Hnone. Qed.

(** ** The failure counter *)

(** On the no-content path the counter is never put back to zero: once
    at the threshold, every further pass without content restarts the
    driver again. *)
Lemma no_content_at_threshold (consecutive_errors : nat) :
  max_consecutive_errors ≤ consecutive_errors + 1 →
  update_cycle consecutive_errors NoContent
  = (consecutive_errors + 1, [RestartDriver]).
Proof.
  intros Hle. unfold update_cycle.
  by rewrite (proj2 (Nat.leb_le _ _) Hle).
Qed.

(** On the exception path the counter restarts from zero. *)
Lemma raised_early_at_threshold (consecutive_errors : nat) :
  max_consecutive_errors ≤ consecutive_errors + 1 →
  update_cycle consecutive_errors RaisedEarly = (0, [RestartDriver]).
Proof.
  intros Hle. unfold update_cycle.
  by rewrite (proj2 (Nat.leb_le _ _) Hle).
Qed.

(** C1 (the code on the failing input). Five passes without content take
    the counter to the threshold and restart the driver, but leave the
    counter at 5; the sixth pass without content restarts the driver
    again.  The exception path, on the same number of failures, restarts
    once and counts again from zero. *)
Theorem no_content_path_keeps_counter_at_threshold :
  run_cycles 0 (replicate 5 NoContent) = (5, [RestartDriver])
  ∧ update_cycle 5 NoContent = (6, [RestartDriver])
  ∧ run_cycles 0 (replicate 6 NoContent) = (6, [RestartDriver; RestartDriver])
  ∧ run_cycles 0 (replicate 5 RaisedEarly) = (0, [RestartDriver])
  ∧ run_cycles 0 (replicate 6 RaisedEarly) = (1, [RestartDriver]).
Proof. repeat split; reflexivity. Qed.

(** ** Saving *)

(** With data and no I/O error the file is written. *)
Lemma save_to_json_writes json_dump path_join data_dir m data filename fs :
  save_to_json json_dump path_join data_dir (m :: data) filename Written fs
    !! path_join data_dir filename
  = Some (json_dump (m :: data)).
Proof. simpl. apply lookup_insert_eq. Qed.

(** C10. Called with no records, [save_to_csv] and [save_to_json] leave
    every file as it is, in either mode and whatever the state of the
    disk; so does the final save of two empty stores. *)
Theorem save_without_data_writes_nothing
    (to_csv : list match_data → bool → string)
    (json_dump : list match_data → string)
    (path_join : string → string → string)
    (data_dir filename timestamp : string) (append : bool)
    (w w1 w2 w3 w4 : write_outcome) (fs : gmap string string) :
  save_to_csv to_csv path_join data_dir [] filename append w fs = fs
  ∧ save_to_json json_dump path_join data_dir [] filename w fs = fs
  ∧ save_final to_csv json_dump path_join data_dir timestamp [] [] w1 w2 w3 w4 fs = fs.
Proof. repeat split. Qed.

(** ** The statements on sample data *)

Ltac hashable_ids_tac :=
  unfold hashable_ids;
  repeat (apply Forall_cons; split);
  [ .. | by apply Forall_nil ];
  intros id Hid; vm_compute in Hid; injection Hid as <-; reflexivity.

Ltac timestamped_tac :=
  unfold timestamped;
  repeat (apply Forall_cons; split);
  [ .. | by apply Forall_nil ];
  eexists; vm_compute; reflexivity.

Ltac nodup_tac := apply (bool_decide_unpack _); vm_compute; exact I.

(** C3, counterexample. Two minutes later only the countdown of the
    fixture has changed; the merge stores the new countdown and reports
    no change. *)
Lemma countdown_change_is_not_reported :
  first_leg !! "starts_in" = Some (VStr "11 days")
  ∧ first_leg_later !! "starts_in" = Some (VStr "10 days")
  ∧ (update_match_odds first_leg first_leg_later).1 !! "starts_in"
    = Some (VStr "10 days")
  ∧ (update_match_odds first_leg first_leg_later).2 = Returned false.
Proof. repeat split; vm_compute; reflexivity. Qed.

Lemma update_match_odds_classifies_witness :
  first_leg_new_odds !! "timestamp" = Some (VStr "2025-04-01 10:02:00")
  ∧ ∃ odds_changed,
      (update_match_odds first_leg first_leg_new_odds).2 = Returned odds_changed
      ∧ (odds_changed = true ↔
         ∃ key v, first_leg_new_odds !! key = Some v ∧ counted key = true
                  ∧ first_leg !! key ≠ Some v)
      ∧ (∀ key v, first_leg_new_odds !! key = Some v → key ≠ "match_id" →
           (update_match_odds first_leg first_leg_new_odds).1 !! key = Some v).
Proof.
  assert (Hts : first_leg_new_odds !! "timestamp" = Some (VStr "2025-04-01 10:02:00"))
    by (vm_compute; reflexivity).
  split; [exact Hts|].
  exact (update_match_odds_classifies_by_score_status_odds
           first_leg first_leg_new_odds _ Hts).
Defined.

Lemma update_match_odds_keeps_absent_fields_witness :
  first_leg !! "odd_w1" = Some (VStr "1.85")
  ∧ first_leg_no_odds !! "odd_w1" = None
  ∧ (update_match_odds first_leg first_leg_no_odds).1 !! "odd_w1"
    = Some (VStr "1.85").
Proof.
  assert (H1 : first_leg !! "odd_w1" = Some (VStr "1.85")) by (vm_compute; reflexivity).
  assert (H2 : first_leg_no_odds !! "odd_w1" = None) by (vm_compute; reflexivity).
  split; [exact H1|]. split; [exact H2|].
  exact (update_match_odds_keeps_absent_fields _ _ _ _ H1 H2).
Defined.

(** C8, counterexample. The same fixture parsed under another flag has
    the same id and another country; the merge replaces the stored
    country. *)
Lemma merge_overwrites_country :
  get_id first_leg = get_id first_leg_other_flag
  ∧ first_leg !! "country" = Some (VStr "gb")
  ∧ first_leg_other_flag !! "country" = Some (VStr "en")
  ∧ (update_match_odds first_leg first_leg_other_flag).1 !! "country"
    = Some (VStr "en").
Proof. repeat split; vm_compute; reflexivity. Qed.

Lemma update_match_odds_protects_match_id_only_witness :
  (update_match_odds first_leg first_leg_other_flag).1 !! "match_id"
    = first_leg !! "match_id"
  ∧ (∀ key v, key ∈ identity_fields →
       is_Some (first_leg_other_flag !! "timestamp") →
       first_leg_other_flag !! key = Some v →
       (update_match_odds first_leg first_leg_other_flag).1 !! key = Some v).
Proof.
  exact (update_match_odds_protects_match_id_only first_leg first_leg_other_flag).
Defined.

(** C4, counterexample. The empty store has no duplicate id; after the
    snapshot with the two fixtures it holds the same id twice. *)
Lemma reconcile_stores_duplicate_new_ids :
  unique_ids []
  ∧ ids (events (reconcile [] [first_leg; second_leg]).1) = [fixture_id; fixture_id]
  ∧ ¬ unique_ids (events (reconcile [] [first_leg; second_leg]).1).
Proof.
  assert (Hids : ids (events (reconcile [] [first_leg; second_leg]).1)
                 = [fixture_id; fixture_id]) by (vm_compute; reflexivity).
  split; [apply NoDup_nil_2|]. split; [exact Hids|].
  unfold unique_ids. rewrite Hids. intros Hnd.
  apply NoDup_cons in Hnd as [Hn _]. apply Hn. by left.
Qed.

Lemma reconcile_preserves_unique_ids_witness :
  unique_ids [first_leg]
  ∧ NoDup (fresh_ids [first_leg] [first_leg_later; other_match])
  ∧ unique_ids (events (reconcile [first_leg] [first_leg_later; other_match]).1).
Proof.
  assert (H1 : unique_ids [first_leg]) by (unfold unique_ids; nodup_tac).
  assert (H2 : NoDup (fresh_ids [first_leg] [first_leg_later; other_match]))
    by nodup_tac.
  repeat split; try assumption.
  exact (reconcile_preserves_unique_ids _ _ H1 H2).
Defined.

(** C2, counterexample. A snapshot that lists the two fixtures is
    reconciled into an empty store and then once more: the second
    reconciliation reports changes. *)
Lemma reconcile_twice_duplicate_ids_reports_changes :
  ∃ st1 st2,
    reconcile [] [first_leg; second_leg] = (st1, Returned tt)
    ∧ reconcile (events st1) [first_leg; second_leg] = (st2, Returned tt)
    ∧ changed_matches st2 = [1; 1]
    ∧ changed_matches st2 ≠ [].
Proof.
  exists (reconcile [] [first_leg; second_leg]).1.
  exists (reconcile (events (reconcile [] [first_leg; second_leg]).1)
            [first_leg; second_leg]).1.
  repeat split; vm_compute; congruence.
Qed.

Lemma reconcile_idempotent_witness :
  hashable_ids [first_leg] ∧ hashable_ids [first_leg_later; other_match]
  ∧ timestamped [first_leg_later; other_match]
  ∧ NoDup (ids [first_leg_later; other_match])
  ∧ ∃ st1,
      reconcile [first_leg] [first_leg_later; other_match] = (st1, Returned tt)
      ∧ reconcile (events st1) [first_leg_later; other_match]
        = (LoopState (events st1) [] [], Returned tt).
Proof.
  assert (H1 : hashable_ids [first_leg]) by hashable_ids_tac.
  assert (H2 : hashable_ids [first_leg_later; other_match]) by hashable_ids_tac.
  assert (H3 : timestamped [first_leg_later; other_match]) by timestamped_tac.
  assert (H4 : NoDup (ids [first_leg_later; other_match])) by nodup_tac.
  repeat split; try assumption.
  exact (reconcile_idempotent _ _ H1 H2 H3 H4).
Defined.

(** C5, counterexample. Both fixtures are new to the store: both are
    stored, and the first entity with the shared id still holds the
    fields of the earlier record, not those of the later one. *)
Lemma both_new_duplicates_are_stored :
  events (reconcile [] [first_leg; second_leg]).1 = [first_leg; second_leg]
  ∧ get_id first_leg = Some fixture_id
  ∧ get_id second_leg = Some fixture_id
  ∧ ¬ reflects first_leg second_leg.
Proof.
  repeat split; try (vm_compute; reflexivity).
  intros Hrefl. specialize (Hrefl "match_date" (VStr "19 April")).
  vm_compute in Hrefl. specialize (Hrefl eq_refl). discriminate Hrefl.
Qed.

Lemma later_record_wins_witness :
  reconcile [first_leg] [first_leg_later; first_leg_new_odds]
    = ((reconcile [first_leg] [first_leg_later; first_leg_new_odds]).1, Returned tt)
  ∧ last_index [first_leg_later; first_leg_new_odds] fixture_id = Some 1
  ∧ [first_leg_later; first_leg_new_odds] !! 1 = Some first_leg_new_odds
  ∧ (∃ j e',
       last_index (events (reconcile [first_leg]
                             [first_leg_later; first_leg_new_odds]).1) fixture_id
         = Some j
       ∧ events (reconcile [first_leg] [first_leg_later; first_leg_new_odds]).1 !! j
         = Some e'
       ∧ reflects e' first_leg_new_odds)
  ∧ (∀ j, last_index [first_leg] fixture_id = Some j →
          last_index (events (reconcile [first_leg]
                                [first_leg_later; first_leg_new_odds]).1) fixture_id
            = Some j)
  ∧ (unique_ids [first_leg] → fixture_id ∈ ids [first_leg] →
     ∀ j' e,
       events (reconcile [first_leg] [first_leg_later; first_leg_new_odds]).1 !! j'
         = Some e →
       get_id e = Some fixture_id →
       last_index (events (reconcile [first_leg]
                             [first_leg_later; first_leg_new_odds]).1) fixture_id
         = Some j').
Proof.
  assert (H1 : reconcile [first_leg] [first_leg_later; first_leg_new_odds]
    = ((reconcile [first_leg] [first_leg_later; first_leg_new_odds]).1, Returned tt))
    by (vm_compute; reflexivity).
  assert (H3 : last_index [first_leg_later; first_leg_new_odds] fixture_id = Some 1)
    by (vm_compute; reflexivity).
  assert (H4 : [first_leg_later; first_leg_new_odds] !! 1 = Some first_leg_new_odds)
    by reflexivity.
  split; [exact H1|]. split; [exact H3|]. split; [exact H4|].
  exact (later_record_wins _ _ _ _ _ _ H1 H3 H4).
Defined.

(** The two fixtures again, both new to the store: the entity the shared
    id maps to after the cycle is the later one. *)
Lemma later_of_two_new_records_is_mapped :
  last_index (events (reconcile [] [first_leg; second_leg]).1) fixture_id = Some 1
  ∧ events (reconcile [] [first_leg; second_leg]).1 !! 1 = Some second_leg.
Proof. split; vm_compute; reflexivity. Qed.

(** C6, counterexample. A record whose timestamp equals the cutoff is
    removed. *)
Lemma record_at_cutoff_is_removed :
  first_leg !! "timestamp" = Some (VStr "2025-04-01 10:00:00")
  ∧ cleanup_old_data "2025-04-01 10:00:00" (Stores [] [first_leg])
    = (Stores [] [], Returned tt).
Proof. split; vm_compute; reflexivity. Qed.

Lemma cleanup_old_data_witness :
  text_timestamps [first_leg; first_leg_later]
  ∧ text_timestamps [other_match]
  ∧ cleanup_old_data "2025-04-01 10:00:00" (Stores [first_leg; first_leg_later] [other_match])
    = (Stores (filter (λ m, at_or_before "2025-04-01 10:00:00" m = false)
                 [first_leg; first_leg_later])
              (filter (λ m, at_or_before "2025-04-01 10:00:00" m = false)
                 [other_match]),
       Returned tt)
  ∧ (∀ m, m !! "timestamp" = Some (VStr "2025-04-01 10:00:00") →
       at_or_before "2025-04-01 10:00:00" m = true)
  ∧ (∀ m ts, m !! "timestamp" = Some (VStr ts) →
       (at_or_before "2025-04-01 10:00:00" m = false
        ↔ String.ltb "2025-04-01 10:00:00" ts = true)).
Proof.
  assert (H1 : text_timestamps [first_leg; first_leg_later]).
  { unfold text_timestamps. repeat (apply Forall_cons; split);
      [ .. | by apply Forall_nil ];
      intros v Hv; vm_compute in Hv; injection Hv as <-; by eexists. }
  assert (H2 : text_timestamps [other_match]).
  { unfold text_timestamps. repeat (apply Forall_cons; split);
      [ .. | by apply Forall_nil ];
      intros v Hv; vm_compute in Hv; injection Hv as <-; by eexists. }
  split; [exact H1|]. split; [exact H2|].
  exact (cleanup_old_data_removes_at_or_before_cutoff
           "2025-04-01 10:00:00" (Stores [first_leg; first_leg_later] [other_match])
           H1 H2).
Defined.

Lemma match_id_determined_witness :
  sport_name fa_cup = sport_name fa_cup_other_flag
  ∧ league_name fa_cup = league_name fa_cup_other_flag
  ∧ (∀ now1 now2 i1 i2 c1 c2,
       live_teams c1 = Some ("Arsenal", "Chelsea") →
       live_teams c2 = Some ("Arsenal", "Chelsea") →
       parse_live_match fa_cup now1 i1 c1 !! "match_id"
         = parse_live_match fa_cup_other_flag now2 i2 c2 !! "match_id"
       ∧ parse_live_match fa_cup now1 i1 c1 !! "match_id"
         = Some (VStr (sport_name fa_cup +:+ "_" +:+ league_name fa_cup +:+ "_"
                       +:+ "Arsenal" +:+ "_" +:+ "Chelsea")))
  ∧ (∀ now1 now2 date1 date2 i1 i2 c1 c2,
       upcoming_teams c1 = Some ("Arsenal", "Chelsea") →
       upcoming_teams c2 = Some ("Arsenal", "Chelsea") →
       parse_upcoming_match fa_cup now1 date1 i1 c1 !! "match_id"
         = parse_upcoming_match fa_cup_other_flag now2 date2 i2 c2 !! "match_id"
       ∧ parse_upcoming_match fa_cup now1 date1 i1 c1 !! "match_id"
         = Some (VStr (sport_name fa_cup +:+ "_" +:+ league_name fa_cup +:+ "_"
                       +:+ "Arsenal" +:+ "_" +:+ "Chelsea"))).
Proof.
  split; [reflexivity|]. split; [reflexivity|].
  exact (match_id_determined_by_identity_fields
           fa_cup fa_cup_other_flag "Arsenal" "Chelsea" eq_refl eq_refl).
Defined.

(** * More of the scraper *)

(** ** The merged state *)

(** X1. When the incoming record carries its timestamp, the merge leaves
    the stored match as the incoming record, its [match_id] apart, laid
    over what was stored: the order in which the fields are gone through
    has no bearing on the result, and no stored field is ever dropped. *)
Theorem update_match_odds_is_union
    (existing_match new_match : match_data) :
  is_Some (new_match !! "timestamp") →
  (update_match_odds existing_match new_match).1
  = delete "match_id" new_match ∪ existing_match.
Proof.
  intros [ts Hts]. apply map_eq. intros key.
  rewrite (update_match_odds_lookup _ _ ts _ Hts), lookup_union, lookup_delete.
  destruct (decide (key = "match_id")) as [->|Hne].
  - rewrite decide_True by done. by rewrite (left_id_L None _).
  - rewrite decide_False by done.
    destruct (new_match !! key) as [v|] eqn:Hk.
    + by destruct (existing_match !! key).
    + by rewrite (left_id_L None _).
Qed.

(** X2. Merging the same record a second time reports no change and
    leaves the stored match as the first merge left it, whatever the two
    ids are. *)
Theorem update_match_odds_twice
    (existing_match new_match : match_data) :
  is_Some (new_match !! "timestamp") →
  update_match_odds (update_match_odds existing_match new_match).1 new_match
  = ((update_match_odds existing_match new_match).1, Returned false).
Proof.
  intros [ts Hts].
  set (merged := (update_match_odds existing_match new_match).1).
  assert (Hm : ∀ key v, new_match !! key = Some v → key ≠ "match_id" →
                 merged !! key = Some v).
  { intros key v Hk Hne. unfold merged.
    rewrite (update_match_odds_lookup _ _ ts _ Hts), decide_False by done.
    by rewrite Hk. }
  destruct (update_match_odds_flag merged new_match ts Hts) as (c & Hc & Hiff).
  pose proof (update_match_odds_lookup merged new_match ts) as Hl.
  destruct (update_match_odds merged new_match) as [e' r]. simpl in *. subst r.
  f_equal.
  - apply map_eq. intros key. rewrite (Hl key Hts).
    case_decide; [done|]. destruct (new_match !! key) eqn:Hk; [|done].
    symmetry. by apply Hm.
  - f_equal. destruct c; [|done]. destruct Hiff as [Hiff _].
    destruct (Hiff eq_refl) as (key & v & Hv & Hcnt & Hne).
    exfalso. apply Hne. apply Hm; [done|]. intros ->. discriminate Hcnt.
Qed.

(** ** What a cycle leaves alone, and what it reports *)

Lemma update_events_untouched live_map parsed st st' r j :
  update_events live_map parsed st = (st', r) →
  j < length (events st) →
  (∀ m id, m ∈ parsed → get_id m = Some id → live_map !! id ≠ Some j) →
  events st' !! j = events st !! j.
Proof.
  revert st. induction parsed as [|m rest IH]; intros st; simpl.
  - by intros [= <- <-].
  - destruct (update_event live_map m st) as [st1 r1] eqn:Hstep.
    intros Hloop Hj Hnot.
    assert (Hone : events st1 !! j = events st !! j
                   ∧ length (events st) ≤ length (events st1)).
    { apply update_event_cases in Hstep.
      destruct Hstep as [[-> _]|[(id & i & e & Hid & Hi & He & Hev & _)
                                |(id & _ & _ & Hev & _)]]; [done| |].
      - rewrite Hev, length_insert. split; [|done].
        apply list_lookup_insert_ne. intros ->.
        apply (Hnot m id); [by left|done|done].
      - rewrite Hev, length_app. split; [|lia]. by apply lookup_app_l. }
    destruct Hone as [Hone Hlen]. rewrite <- Hone.
    destruct r1 as [[]|x].
    + apply IH; [done|lia|]. intros m' id Hin. apply Hnot. by right.
    + by injection Hloop as <- <-.
Qed.

(** X3. Absence is not change: a stored entity whose id does not occur
    in the snapshot (or that has no id) is, after the cycle, exactly what
    it was, timestamp included, however the cycle ended. *)
Theorem reconcile_leaves_absent_entities
    (stored parsed : list match_data) (j : nat) (e : match_data) :
  stored !! j = Some e →
  (∀ id, get_id e = Some id → id ∉ ids parsed) →
  events (reconcile stored parsed).1 !! j = Some e.
Proof.
  intros Hj Habsent.
  destruct (build_map stored 0 ∅) as [live_map|x] eqn:Hb.
  2:{ by rewrite (reconcile_raised_build _ _ _ Hb). }
  unfold reconcile. rewrite Hb.
  destruct (update_events live_map parsed (LoopState stored [] [])) as [st' r] eqn:Hloop.
  simpl. rewrite <- Hj.
  apply (update_events_untouched _ _ _ _ _ _ Hloop).
  { simpl. by apply lookup_lt_Some in Hj. }
  intros m id Hin Hid Hlm.
  destruct (build_map_points_to_ids _ _ Hb _ _ Hlm) as (e' & He' & Hide').
  assert (e' = e) as -> by congruence.
  apply (Habsent id Hide'). apply elem_of_ids. by exists m.
Qed.

Lemma update_events_changed_bound live_map n parsed st st' :
  update_events live_map parsed st = (st', Returned tt) →
  (∀ id i, live_map !! id = Some i → i < n) →
  Forall (λ i, i < n) (changed_matches st) →
  Forall (λ i, i < n) (changed_matches st').
Proof.
  intros Hloop Hbound. revert st Hloop.
  induction parsed as [|m rest IH]; intros st; simpl.
  - by intros [= <-].
  - destruct (update_event live_map m st) as [st1 r1] eqn:Hstep.
    destruct r1 as [[]|x]; [|done].
    intros Hloop Hall. apply (IH st1 Hloop).
    apply update_event_cases in Hstep.
    destruct Hstep as [[-> _]|[(id & i & e & _ & Hi & _ & _ & _ & Hret)
                              |(id & _ & _ & _ & _ & -> & _)]]; [done| |done].
    destruct (Hret eq_refl) as (c & _ & ->). destruct c; [|done].
    apply Forall_app. split; [done|]. apply Forall_singleton. by eapply Hbound.
Qed.

Lemma fresh_is_new stored live_map m :
  build_map stored 0 ∅ = Returned live_map →
  fresh live_map m = true ↔ is_new stored m = true.
Proof.
  intros Hb. unfold fresh, is_new. destruct (get_id m) as [id|]; [|done].
  rewrite !bool_decide_eq_true, (build_map_lookup _ _ _ Hb). apply last_index_None.
Qed.

(** X4. What a cycle that ran to its end reports and stores: the created
    records are the records of the snapshot whose id no stored entity
    held, in snapshot order; they are appended behind the stored
    entities, none of which is removed or moved; and every reference in
    the list of changed matches points at an entity that was stored
    before the cycle. *)
Theorem reconcile_change_set
    (stored parsed : list match_data) (st : loop_state) :
  reconcile stored parsed = (st, Returned tt) →
  new_matches st = filter (λ m, is_new stored m = true) parsed
  ∧ events st = take (length stored) (events st) ++ new_matches st
  ∧ get_id <$> take (length stored) (events st) = get_id <$> stored
  ∧ length (events st) = length stored + length (new_matches st)
  ∧ Forall (λ i, i < length stored) (changed_matches st).
Proof.
  intros Hrec.
  destruct (build_map stored 0 ∅) as [live_map|x] eqn:Hb.
  2:{ by rewrite (reconcile_raised_build _ _ _ Hb) in Hrec. }
  destruct (reconcile_shape stored parsed live_map Hb)
    as (kept & seen & Hev & Hnm & Hids & Hlen & _ & Hseen).
  rewrite Hrec in Hev, Hnm, Hseen. simpl in Hev, Hnm, Hseen.
  specialize (Hseen eq_refl). subst seen.
  assert (Hnew : new_matches st = filter (λ m, is_new stored m = true) parsed).
  { rewrite Hnm. apply list_filter_iff. intros m. by apply fresh_is_new. }
  assert (Htake : take (length stored) (events st) = kept).
  { rewrite Hev, <- Hlen. apply take_app_length. }
  split; [done|]. rewrite Htake. split; [by rewrite Hnm|]. split; [done|].
  split.
  - rewrite Hev, length_app, Hlen. by rewrite Hnm.
  - unfold reconcile in Hrec. rewrite Hb in Hrec.
    apply (update_events_changed_bound _ _ _ _ _ Hrec).
    + intros id i. by apply build_map_bound.
    + done.
Qed.

(** ** The log of odds changes *)

Lemma omap_all_None {A B} (f : A → option B) (l : list A) :
  (∀ x, x ∈ l → f x = None) → omap f l = [].
Proof.
  induction l as [|x l IH]; intros Hall; simpl; [done|].
  rewrite (Hall x) by by left. apply IH. intros y Hy. apply Hall. by right.
Qed.

(** A match compared with itself gives no line. *)
Lemma odds_lines_self label (m : match_data) : odds_lines label m m = [].
Proof.
  unfold odds_lines. apply omap_all_None. intros [key v] Hin.
  apply elem_of_map_to_list in Hin. simpl. rewrite Hin.
  destruct (is_odds_key key); [|done].
  by rewrite bool_decide_eq_false_2 by (intros Hne; by apply Hne).
Qed.

Lemma odds_lines_no_old label (m : match_data) : odds_lines label ∅ m = [].
Proof.
  unfold odds_lines. apply omap_all_None. intros [key v] _. simpl.
  rewrite lookup_empty. by destruct (is_odds_key key).
Qed.

Lemma flat_map_all_nil {A B} (f : A → list B) (l : list A) :
  (∀ x, x ∈ l → f x = []) → flat_map f l = [].
Proof.
  induction l as [|x l IH]; intros Hall; simpl; [done|].
  rewrite (Hall x) by by left. simpl. apply IH. intros y Hy. apply Hall. by right.
Qed.

(** X5. The comparison behind the log is made against the stored
    objects themselves: the list of old matches is a shallow copy, so by
    the time the log is written an old match is the changed match.  With
    one entity per id in the store, a cycle that ran to its end writes no
    line about any odds, whatever changed. *)
Theorem odds_log_has_no_lines
    (label : string) (stored parsed : list match_data) (st : loop_state) :
  reconcile stored parsed = (st, Returned tt) →
  unique_ids stored →
  log_changes label (length stored) (events st) (changed_matches st) = [].
Proof.
  intros Hrec Huniq.
  destruct (build_map stored 0 ∅) as [live_map|x] eqn:Hb.
  2:{ by rewrite (reconcile_raised_build _ _ _ Hb) in Hrec. }
  destruct (reconcile_shape stored parsed live_map Hb)
    as (kept & seen & Hev & _ & Hids & Hlen & _ & _).
  rewrite Hrec in Hev. simpl in Hev.
  assert (Htake : take (length stored) (events st) = kept).
  { rewrite Hev, <- Hlen. apply take_app_length. }
  assert (Hbound : Forall (λ i, i < length stored) (changed_matches st)).
  { unfold reconcile in Hrec. rewrite Hb in Hrec.
    apply (update_events_changed_bound _ _ _ _ _ Hrec); [|done].
    intros id i. by apply build_map_bound. }
  unfold log_changes. apply flat_map_all_nil. intros i Hi.
  pose proof (proj1 (Forall_forall _ _) Hbound i Hi) as Hlt. simpl in Hlt.
  destruct (events st !! i) as [m|] eqn:Hm; [|done].
  destruct (get_id m) as [id|] eqn:Hid; [|done].
  unfold old_match_of. rewrite Htake.
  destruct (list_find (λ m0, get_id m0 = Some id) kept) as [[j m']|] eqn:Hfind.
  2:{ apply odds_lines_no_old. }
  apply list_find_Some in Hfind as (Hj & Hidj & _).
  assert (Hi' : kept !! i = Some m).
  { rewrite <- Htake, lookup_take_lt by done. done. }
  assert (j = i) as ->.
  { eapply (unique_position kept); try done.
    rewrite (ids_ext _ _ Hids). done. }
  assert (m' = m) as -> by congruence.
  apply odds_lines_self.
Qed.

(** ** Odds extraction *)

Lemma str_of_nat_inj (a b : nat) : str_of_nat a = str_of_nat b → a = b.
Proof.
  unfold str_of_nat. intros Heq.
  assert (Hu : Nat.to_uint a = Nat.to_uint b).
  { apply (f_equal NilEmpty.uint_of_string) in Heq.
    rewrite !NilEmpty.usu in Heq. by injection Heq. }
  rewrite <- (DecimalNat.Unsigned.of_to a), <- (DecimalNat.Unsigned.of_to b).
  by rewrite Hu.
Qed.

Lemma append_cancel_l (p a b : string) : p +:+ a = p +:+ b → a = b.
Proof.
  induction p as [|c p IH]; simpl; [done|]. intros [= Heq]. by apply IH.
Qed.

Lemma extract_odds_app odds1 odds2 (d : match_data) :
  extract_odds (odds1 ++ odds2) d = extract_odds odds2 (extract_odds odds1 d).
Proof. unfold extract_odds. apply foldl_app. Qed.

Section extract_facts.

Variable str_strip : string → string.
Variable str_lower : string → string.

Lemma store_named_cells_writes bet_types i cells (d : match_data) :
  store_named_cells str_strip str_lower bet_types i cells d
  = extract_odds (named_cells_writes str_strip str_lower bet_types i cells) d.
Proof.
  revert i d. induction cells as [|c rest IH]; intros i d; simpl; [done|].
  rewrite extract_odds_app, IH. f_equal.
  unfold store_named, named_writes.
  destruct (cell_non c); [done|]. by destruct (odds_value_of c).
Qed.

Lemma store_positions_writes i cells (d : match_data) :
  store_positions i cells d = extract_odds (positions_writes i cells) d.
Proof.
  revert i d. induction cells as [|c rest IH]; intros i d; simpl; [done|].
  rewrite extract_odds_app, IH. f_equal.
  unfold store_position. by destruct (odds_value_of c).
Qed.

(** The cell-by-cell extraction makes the writes [odds_writes] lists. *)
Lemma extract_odds_cells_writes bet_types container (d : match_data) :
  extract_odds_cells str_strip str_lower bet_types container d
  = extract_odds (odds_writes str_strip str_lower bet_types container) d.
Proof.
  destruct container as [cells|]; simpl; [|done].
  by rewrite extract_odds_app, store_positions_writes, store_named_cells_writes.
Qed.

Lemma store_positions_below i cells (d : match_data) j :
  j < i →
  store_positions i cells d !! ("odd_position_" +:+ str_of_nat (j + 1))
  = d !! ("odd_position_" +:+ str_of_nat (j + 1)).
Proof.
  revert i d. induction cells as [|c rest IH]; intros i d Hlt; simpl; [done|].
  rewrite IH by lia. unfold store_position.
  destruct (odds_value_of c); [|done].
  apply lookup_insert_ne. intros Heq.
  apply (append_cancel_l "odd_position_") in Heq.
  apply str_of_nat_inj in Heq. lia.
Qed.

Lemma store_positions_at i cells (d : match_data) k c (v : string) :
  cells !! k = Some c → odds_value_of c = Some v →
  store_positions i cells d !! ("odd_position_" +:+ str_of_nat (i + k + 1))
  = Some (VStr v).
Proof.
  revert i d k. induction cells as [|c' rest IH]; intros i d k Hk Hv; [done|].
  destruct k as [|k]; simpl in *.
  - injection Hk as ->. rewrite Nat.add_0_r, store_positions_below by lia.
    unfold store_position. rewrite Hv. apply lookup_insert_eq.
  - replace (i + S k + 1) with (S i + k + 1) by lia. by apply IH.
Qed.

End extract_facts.

(** X6. [extract_odds] only ever writes fields whose name starts with
    [odd_]: whatever the cells hold, the sport, league, team names, id,
    timestamp, score and every other field of the match are as they were. *)
Theorem extract_odds_touches_odds_fields_only
    (str_strip str_lower : string → string) (bet_types : list string)
    (container : option (list bet_cell)) (d : match_data) (key : string) :
  String.prefix "odd_" key = false →
  extract_odds_cells str_strip str_lower bet_types container d !! key = d !! key.
Proof.
  intros Hkey. rewrite extract_odds_cells_writes. by apply extract_odds_lookup.
Qed.

(** X7. The positional fields count the valid cells only: the odds of
    the k-th cell that is not marked [non] (k from 1) end up in
    [odd_position_k], however many [non] cells precede it. *)
Theorem extract_odds_positions
    (str_strip str_lower : string → string) (bet_types : list string)
    (cells : list bet_cell) (d : match_data) (k : nat) (c : bet_cell) (v : string) :
  valid_cells cells !! k = Some c →
  odds_value_of c = Some v →
  extract_odds_cells str_strip str_lower bet_types (Some cells) d
    !! ("odd_position_" +:+ str_of_nat (k + 1))
  = Some (VStr v).
Proof.
  intros Hk Hv. simpl.
  by rewrite (store_positions_at 0 _ _ k c v).
Qed.

(** X8. Cells marked [non], cells without inner text and cells that show
    an empty text or one of the two dashes store nothing: when no cell
    shows odds, or no container was found, the match is left as it was. *)
Theorem extract_odds_without_odds
    (str_strip str_lower : string → string) (bet_types : list string)
    (container : option (list bet_cell)) (d : match_data) :
  (∀ cells, container = Some cells →
     Forall (λ c, cell_non c = true ∨ odds_value_of c = None) cells) →
  extract_odds_cells str_strip str_lower bet_types container d = d.
Proof.
  intros Hall. destruct container as [cells|]; [|done].
  specialize (Hall cells eq_refl). simpl.
  assert (Hpos : ∀ i l d', Forall (λ c, odds_value_of c = None) l →
            store_positions i l d' = d').
  { intros i l. revert i. induction l as [|c rest IH]; intros i d' Hl; [done|].
    apply Forall_cons in Hl as [Hc Hl]. simpl. unfold store_position.
    rewrite Hc. by apply IH. }
  assert (Hnamed : ∀ i d',
            store_named_cells str_strip str_lower bet_types i cells d' = d').
  { induction Hall as [|c rest Hc _ IH]; intros i d'; [done|]. simpl.
    rewrite IH. unfold store_named. destruct Hc as [->| ->]; [done|].
    by destruct (cell_non c). }
  rewrite Hnamed. apply Hpos.
  unfold valid_cells. apply Forall_forall. intros c Hin.
  apply list_elem_of_filter in Hin as [Hnon Hin].
  destruct (proj1 (Forall_forall _ _) Hall c Hin) as [Hc|Hc]; [congruence|done].
Qed.

(** X9. Without team names the id is positional, and positions tell
    matches apart: two matches of one section without team names get the
    same id only if they stand at the same position. *)
Theorem positional_match_ids_differ
    (sec : section_info) (now1 now2 : string) (i j : nat) (c1 c2 : live_cells) :
  live_teams c1 = None →
  live_teams c2 = None →
  parse_live_match sec now1 i c1 !! "match_id"
    = parse_live_match sec now2 j c2 !! "match_id" →
  i = j.
Proof.
  intros H1 H2. rewrite !parse_live_match_id, H1, H2. simpl.
  intros [= Heq].
  do 4 apply append_cancel_l in Heq. by apply str_of_nat_inj.
Qed.

(** ** Sport names and leagues *)

Lemma prefix_append (p s : string) : String.prefix p (p +:+ s) = true.
Proof.
  induction p as [|c p IH]; simpl; [by destruct s|].
  by destruct (Ascii.ascii_dec c c).
Qed.

Lemma sport_mapping_lookup sport_id name :
  (list_to_map sport_mapping : gmap string string) !! sport_id = Some name →
  (sport_id, name) ∈ sport_mapping.
Proof. apply elem_of_list_to_map_2. Qed.

Lemma snd_determines_fst {A B} (l : list (A * B)) a b x :
  NoDup l.*2 → (a, x) ∈ l → (b, x) ∈ l → a = b.
Proof.
  induction l as [|[a' x'] l IH]; intros Hnd Ha Hb.
  { by apply elem_of_nil in Ha. }
  simpl in Hnd. apply NoDup_cons in Hnd as [Hnot Hnd].
  assert (Hin : ∀ c, (c, x') ∈ l → x' ∈ l.*2).
  { intros c Hc. apply list_elem_of_fmap. by exists (c, x'). }
  apply elem_of_cons in Ha as [Ha|Ha]; apply elem_of_cons in Hb as [Hb|Hb];
    simplify_eq.
  - done.
  - exfalso. by eapply Hnot, Hin.
  - exfalso. by eapply Hnot, Hin.
  - by apply IH.
Qed.

(** X10. Different sport ids never get the same name: the twelve names
    of the table differ from one another, and the name made up for an
    unknown id repeats the id and is none of the twelve. *)
Theorem get_sport_name_inj (a b : string) :
  get_sport_name a = get_sport_name b → a = b.
Proof.
  assert (Hnames : NoDup sport_mapping.*2).
  { apply (bool_decide_unpack _). vm_compute. exact I. }
  assert (Hplain : Forall (λ p, String.prefix "Sport " p.2 = false) sport_mapping).
  { repeat (apply Forall_cons; split); try reflexivity. by apply Forall_nil. }
  unfold get_sport_name.
  destruct ((list_to_map sport_mapping : gmap string string) !! a) as [x|] eqn:Ha;
    destruct ((list_to_map sport_mapping : gmap string string) !! b) as [y|] eqn:Hb;
    simpl; intros Heq.
  - subst y. apply sport_mapping_lookup in Ha, Hb.
    by eapply (snd_determines_fst sport_mapping).
  - apply sport_mapping_lookup in Ha.
    pose proof (proj1 (Forall_forall _ _) Hplain _ Ha) as Hp. simpl in Hp.
    by rewrite Heq, prefix_append in Hp.
  - apply sport_mapping_lookup in Hb.
    pose proof (proj1 (Forall_forall _ _) Hplain _ Hb) as Hp. simpl in Hp.
    by rewrite <- Heq, prefix_append in Hp.
  - by apply append_cancel_l in Heq.
Qed.

Lemma league_data_of_id h (ld : match_data) :
  league_data_of h = Some ld → is_Some (ld !! "league_id").
Proof.
  unfold league_data_of. destruct (header_league h) as [[name href]|]; [|done].
  intros [= <-]. destruct (header_top h); eexists; by simplify_map_eq.
Qed.

Lemma seen_league_id (leagues : list match_data) (ld : match_data) id :
  ld !! "league_id" = Some id →
  Exists (λ l, l !! "league_id" = ld !! "league_id") leagues ↔ id ∈ league_ids leagues.
Proof.
  intros Hid. rewrite Exists_exists. unfold league_ids. rewrite list_elem_of_omap.
  rewrite Hid. done.
Qed.

Lemma collect_leagues_app headers1 headers2 leagues :
  collect_leagues (headers1 ++ headers2) leagues
  = collect_leagues headers2 (collect_leagues headers1 leagues).
Proof.
  revert leagues. induction headers1 as [|h rest IH]; intros leagues; simpl; [done|].
  destruct (league_data_of h) as [ld|]; [|apply IH].
  case_bool_decide; apply IH.
Qed.

Lemma collect_leagues_prefix headers leagues :
  leagues `prefix_of` collect_leagues headers leagues.
Proof.
  revert leagues. induction headers as [|h rest IH]; intros leagues; simpl; [done|].
  destruct (league_data_of h) as [ld|]; [|apply IH].
  case_bool_decide; [apply IH|].
  etrans; [|apply IH]. by apply prefix_app_r.
Qed.

Lemma collect_leagues_NoDup headers leagues :
  NoDup (league_ids leagues) → NoDup (league_ids (collect_leagues headers leagues)).
Proof.
  revert leagues. induction headers as [|h rest IH]; intros leagues Hnd; simpl; [done|].
  destruct (league_data_of h) as [ld|] eqn:Hld; [|by apply IH].
  destruct (league_data_of_id _ _ Hld) as [id Hid].
  case_bool_decide as Hseen; [by apply IH|]. apply IH.
  rewrite (seen_league_id _ _ _ Hid) in Hseen.
  unfold league_ids in *. rewrite omap_app. simpl. rewrite Hid.
  apply NoDup_app. split; [done|]. split; [|apply NoDup_singleton].
  intros x Hx Hx'. apply list_elem_of_singleton in Hx'. by subst x.
Qed.

Lemma collect_leagues_complete headers leagues h (ld : match_data) :
  h ∈ headers → league_data_of h = Some ld →
  ∃ id, ld !! "league_id" = Some id
        ∧ id ∈ league_ids (collect_leagues headers leagues).
Proof.
  intros Hin Hld. destruct (league_data_of_id _ _ Hld) as [id Hid].
  exists id. split; [done|]. revert leagues.
  induction headers as [|h' rest IH]; intros leagues; [by apply elem_of_nil in Hin|].
  assert (Hkeep : ∀ ls, id ∈ league_ids ls → id ∈ league_ids (collect_leagues rest ls)).
  { intros ls Hls. destruct (collect_leagues_prefix rest ls) as [k ->].
    unfold league_ids in *. rewrite omap_app. apply elem_of_app. by left. }
  apply elem_of_cons in Hin as [<-|Hin]; simpl.
  - rewrite Hld. case_bool_decide as Hseen.
    + apply Hkeep. by apply (seen_league_id _ _ _ Hid).
    + apply Hkeep. unfold league_ids. rewrite omap_app. apply elem_of_app. right.
      simpl. rewrite Hid. by left.
  - destruct (league_data_of h') as [ld'|]; [|by apply IH].
    case_bool_decide; by apply IH.
Qed.

Lemma collect_leagues_sound headers leagues (l : match_data) :
  l ∈ collect_leagues headers leagues →
  l ∈ leagues ∨ ∃ h, h ∈ headers ∧ league_data_of h = Some l.
Proof.
  revert leagues. induction headers as [|h rest IH]; intros leagues; simpl; [by left|].
  destruct (league_data_of h) as [ld|] eqn:Hld.
  - case_bool_decide.
    + intros Hl. destruct (IH _ Hl) as [?|(h' & Hh' & Hd)]; [by left|].
      right. exists h'. split; [by right|done].
    + intros Hl. destruct (IH _ Hl) as [Hl'|(h' & Hh' & Hd)].
      * apply elem_of_app in Hl' as [?|Hl']; [by left|].
        apply list_elem_of_singleton in Hl'. subst l. right. exists h. split; [by left|done].
      * right. exists h'. split; [by right|done].
  - intros Hl. destruct (IH _ Hl) as [?|(h' & Hh' & Hd)]; [by left|].
    right. exists h'. split; [by right|done].
Qed.

(** X11. The list of leagues holds every league id at most once; it
    holds the id of every header that names a league; and for an id
    named by several headers it holds the data of the first of them. *)
Theorem get_all_leagues_deduplicates (headers : list league_header) :
  NoDup (league_ids (get_all_leagues headers))
  ∧ (∀ h ld, h ∈ headers → league_data_of h = Some ld →
       ∃ id, ld !! "league_id" = Some id ∧ id ∈ league_ids (get_all_leagues headers))
  ∧ (∀ before h after ld,
       headers = before ++ h :: after →
       league_data_of h = Some ld →
       (∀ h' ld', h' ∈ before → league_data_of h' = Some ld' →
          ld' !! "league_id" ≠ ld !! "league_id") →
       ld ∈ get_all_leagues headers).
Proof.
  unfold get_all_leagues. split; [|split].
  - apply collect_leagues_NoDup. apply NoDup_nil_2.
  - intros h ld. apply collect_leagues_complete.
  - intros before h after ld -> Hld Hfirst.
    rewrite collect_leagues_app. simpl. rewrite Hld.
    destruct (league_data_of_id _ _ Hld) as [id Hid].
    rewrite bool_decide_eq_false_2.
    + destruct (collect_leagues_prefix after (collect_leagues before [] ++ [ld]))
        as [k ->].
      apply elem_of_app. left. apply elem_of_app. right. by left.
    + rewrite Exists_exists. intros (l & Hl & Heq).
      apply collect_leagues_sound in Hl as [Hl|(h' & Hh' & Hd)].
      * by apply elem_of_nil in Hl.
      * by apply (Hfirst h' l).
Qed.

(** ** Rotation of old files *)

Lemma insert_by_mtime_perm (f : file) (sorted : list file) :
  insert_by_mtime f sorted ≡ₚ f :: sorted.
Proof.
  induction sorted as [|g rest IH]; simpl; [done|].
  case_match; [done|]. rewrite IH. apply Permutation_swap.
Qed.

Lemma insert_by_mtime_sorted (f : file) (sorted : list file) :
  StronglySorted (λ a b : file, a.2 ≤ b.2) sorted →
  StronglySorted (λ a b : file, a.2 ≤ b.2) (insert_by_mtime f sorted).
Proof.
  induction 1 as [|g rest Hrest IH Hall]; simpl.
  - by repeat constructor.
  - destruct (f.2 <? g.2) eqn:Hlt.
    + apply Nat.ltb_lt in Hlt. constructor; [by constructor|].
      constructor; [lia|]. eapply Forall_impl; [exact Hall|]. simpl. intros; lia.
    + apply Nat.ltb_ge in Hlt. constructor; [done|].
      rewrite insert_by_mtime_perm. by constructor.
Qed.

Lemma sort_by_mtime_from (acc files : list file) :
  StronglySorted (λ a b : file, a.2 ≤ b.2) acc →
  foldl (λ sorted f, insert_by_mtime f sorted) acc files ≡ₚ acc ++ files
  ∧ StronglySorted (λ a b : file, a.2 ≤ b.2)
      (foldl (λ sorted f, insert_by_mtime f sorted) acc files).
Proof.
  revert acc. induction files as [|f rest IH]; intros acc Hacc; simpl.
  - by rewrite app_nil_r.
  - destruct (IH (insert_by_mtime f acc)) as [Hperm Hsorted].
    { by apply insert_by_mtime_sorted. }
    split; [|done]. rewrite Hperm, insert_by_mtime_perm. simpl.
    apply Permutation_middle.
Qed.

Lemma sort_by_mtime_perm (files : list file) : sort_by_mtime files ≡ₚ files.
Proof.
  destruct (sort_by_mtime_from [] files) as [Hperm _]; [constructor|]. done.
Qed.

Lemma sort_by_mtime_sorted (files : list file) :
  StronglySorted (λ a b : file, a.2 ≤ b.2) (sort_by_mtime files).
Proof.
  destruct (sort_by_mtime_from [] files) as [_ Hsorted]; [constructor|]. done.
Qed.

Lemma filter_none (remove_fails : string → bool) (l : list file) :
  (∀ path, remove_fails path = false) →
  filter (λ f : file, remove_fails f.1 = true) l = [].
Proof.
  intros Hok. induction l as [|f l IH]; [done|].
  rewrite filter_cons_False; [done|]. by rewrite Hok.
Qed.

(** X12. The rotation tries to remove all but five of the matched
    files (none when there are five or fewer); the files it keeps and the
    files it removes make up the matched files; and no removed file is
    newer than a kept one.  When no removal fails, the kept files are
    what is left. *)
Theorem rotation_keeps_five_newest
    (remove_fails : string → bool) (files : list file) :
  old_files files ++ kept_files files ≡ₚ files
  ∧ length (kept_files files) = min 5 (length files)
  ∧ (∀ f g, f ∈ old_files files → g ∈ kept_files files → f.2 ≤ g.2)
  ∧ ((∀ path, remove_fails path = false) →
     rotate remove_fails files = kept_files files).
Proof.
  pose proof (sort_by_mtime_perm files) as Hperm.
  pose proof (sort_by_mtime_sorted files) as Hsorted.
  assert (Hlen : length (sort_by_mtime files) = length files)
    by by rewrite Hperm.
  unfold rotate, old_files, kept_files. cbv zeta.
  destruct (5 <? length (sort_by_mtime files)) eqn:Hmany.
  - apply Nat.ltb_lt in Hmany. split; [by rewrite take_drop|].
    split; [rewrite length_drop; lia|]. split.
    + intros f g Hf Hg.
      rewrite <- (take_drop (length (sort_by_mtime files) - 5)) in Hsorted.
      by eapply (StronglySorted_app_1_elem_of _ _ _ f g Hsorted).
    + intros Hok.
      by rewrite (filter_none remove_fails) by done.
  - apply Nat.ltb_ge in Hmany. split; [done|]. split; [lia|]. split.
    + intros f g Hf. by apply elem_of_nil in Hf.
    + done.
Qed.

(** ** What a cycle saves *)

Lemma append_head (c : ascii) (s t : string) :
  String c s +:+ t = String c (s +:+ t).
Proof. reflexivity. Qed.

Lemma collection_files_differ (collection timestamp : string) :
  collection +:+ ".json" ≠ collection +:+ ".csv"
  ∧ collection +:+ "_" +:+ timestamp +:+ ".json" ≠ collection +:+ ".csv"
  ∧ collection +:+ "_" +:+ timestamp +:+ ".json" ≠ collection +:+ ".json".
Proof.
  repeat split; intros Heq; apply append_cancel_l in Heq;
    rewrite ?append_head in Heq; discriminate Heq.
Qed.

(** X13. The save step of one collection (lines 937-946), after a
    merge that ran to its end and found new matches, when its writes
    succeed and its three paths differ: the collection's JSON document
    holds the full store, and the collection's CSV log holds what it held
    followed by the new matches and nothing else, the header being
    written only when the log did not exist.  The step writes no path
    other than these two and the timestamped copy.  (What else the cycle
    writes is not part of this step.) *)
Theorem persist_changes_appends_new_matches
    (to_csv : list match_data → bool → string)
    (json_dump : list match_data → string)
    (path_join : string → string → string)
    (data_dir collection timestamp : string) (update_count : nat)
    (stored parsed : list match_data) (st : loop_state)
    (fs : gmap string string) :
  let json := path_join data_dir (collection +:+ ".json") in
  let snapshot := path_join data_dir (collection +:+ "_" +:+ timestamp +:+ ".json") in
  let csv := path_join data_dir (collection +:+ ".csv") in
  json ≠ csv → snapshot ≠ csv → snapshot ≠ json →
  reconcile stored parsed = (st, Returned tt) →
  new_matches st ≠ [] →
  let fs' := persist_changes to_csv json_dump path_join data_dir collection
               timestamp update_count st Written Written Written fs in
  fs' !! json = Some (json_dump (events st))
  ∧ fs' !! csv
    = Some (default "" (fs !! csv)
            +:+ to_csv (new_matches st) (negb (bool_decide (is_Some (fs !! csv)))))
  ∧ (∀ path, path ≠ json → path ≠ snapshot → path ≠ csv →
       fs' !! path = fs !! path).
Proof.
  intros json snap csv Hjc' Hsc' Hsj' Hrec Hnew fs'.
  assert (Hev : events st ≠ []).
  { destruct (build_map stored 0 ∅) as [live_map|x] eqn:Hb.
    2:{ by rewrite (reconcile_raised_build _ _ _ Hb) in Hrec. }
    destruct (reconcile_shape stored parsed live_map Hb)
      as (kept & seen & Hev & Hnm & _).
    rewrite Hrec in Hev, Hnm. simpl in Hev, Hnm. rewrite Hev, <- Hnm.
    intros Hnil. apply app_eq_nil in Hnil as [_ ?]. done. }
  set (fs2 := if update_count mod 10 =? 0
              then <[snap := json_dump (events st)]> (<[json := json_dump (events st)]> fs)
              else <[json := json_dump (events st)]> fs).
  assert (Hfs' : fs' = <[csv := default "" (fs2 !! csv)
                            +:+ to_csv (new_matches st)
                                  (negb (bool_decide (is_Some (fs2 !! csv))))]> fs2).
  { unfold fs', persist_changes, fs2, json, snap, csv.
    destruct (new_matches st) as [|m new]; [done|].
    destruct (events st) as [|e evs]; [done|].
    destruct (changed_matches st); simpl; by destruct (update_count mod 10 =? 0). }
  assert (Hcsv : fs2 !! csv = fs !! csv).
  { unfold fs2. destruct (update_count mod 10 =? 0);
      by rewrite ?lookup_insert_ne by done. }
  assert (Hjson : fs2 !! json = Some (json_dump (events st))).
  { unfold fs2. destruct (update_count mod 10 =? 0).
    - rewrite lookup_insert_ne by done. apply lookup_insert_eq.
    - apply lookup_insert_eq. }
  rewrite Hfs'. split; [|split].
  - by rewrite lookup_insert_ne.
  - by rewrite lookup_insert_eq, Hcsv.
  - intros path H1 H2 H3. rewrite lookup_insert_ne by done.
    unfold fs2. destruct (update_count mod 10 =? 0);
      by rewrite ?lookup_insert_ne by done.
Qed.

(** ** A collection without news *)

Lemma counted_not_match_id key : counted key = true → key ≠ "match_id".
Proof. intros Hc ->. discriminate Hc. Qed.

(** A record the stored match agrees with is merged without a report
    and without touching a score, status or odds field. *)
Lemma update_match_odds_quiet (e r : match_data) :
  is_Some (r !! "timestamp") → agrees e r →
  (update_match_odds e r).2 = Returned false
  ∧ get_id (update_match_odds e r).1 = get_id e
  ∧ ∀ key, counted key = true → (update_match_odds e r).1 !! key = e !! key.
Proof.
  intros [ts Hts] Hagree.
  destruct (update_match_odds_flag e r ts Hts) as (c & Hc & Hiff).
  split; [|split].
  - rewrite Hc. f_equal. destruct c; [|done]. destruct Hiff as [Hiff _].
    destruct (Hiff eq_refl) as (key & v & Hv & Hcnt & Hne).
    exfalso. apply Hne. by apply Hagree.
  - apply update_match_odds_id.
  - intros key Hcnt. rewrite (update_match_odds_lookup _ _ ts _ Hts).
    rewrite decide_False by by apply counted_not_match_id.
    destruct (r !! key) as [v|] eqn:Hv; [|done]. symmetry. by apply Hagree.
Qed.

Lemma update_events_quiet live_map parsed st :
  (∀ r id, r ∈ parsed → get_id r = Some id →
     hashable id = true ∧ is_Some (r !! "timestamp")
     ∧ ∃ j e, live_map !! id = Some j ∧ events st !! j = Some e ∧ agrees e r) →
  ∃ st',
    update_events live_map parsed st = (st', Returned tt)
    ∧ new_matches st' = new_matches st
    ∧ changed_matches st' = changed_matches st.
Proof.
  revert st. induction parsed as [|r rest IH]; intros st Hall; simpl.
  { by exists st. }
  destruct (get_id r) as [id|] eqn:Hid.
  2:{ assert (update_event live_map r st = (st, Returned tt)) as ->.
      { unfold update_event. by rewrite Hid. }
      apply IH. intros r' id' Hin. apply Hall. by right. }
  destruct (Hall r id) as (Hh & Hts & j & e & Hj & He & Hagree); [by left|done|].
  destruct (update_match_odds_quiet e r Hts Hagree) as (Hflag & Hide & Hkeep).
  set (e' := (update_match_odds e r).1) in *.
  set (st1 := LoopState (<[j := e']> (events st)) (new_matches st) (changed_matches st)).
  assert (update_event live_map r st = (st1, Returned tt)) as ->.
  { unfold update_event. rewrite Hid, Hh, Hj, He.
    destruct (update_match_odds e r) as [e0 r0] eqn:Hu. simpl in *. by subst r0. }
  destruct (IH st1) as (st' & Hloop & Hnew & Hchanged).
  { intros r' id' Hin Hid'.
    destruct (Hall r' id') as (Hh' & Hts' & j' & e0 & Hj' & He0 & Hagree');
      [by right|done|].
    split; [done|]. split; [done|]. simpl.
    destruct (decide (j' = j)) as [->|Hne].
    - exists j, e'. split; [done|]. split.
      + apply list_lookup_insert_eq. by apply lookup_lt_Some in He.
      + assert (e0 = e) as -> by congruence.
        intros key v Hv Hcnt. rewrite Hkeep by done. by apply Hagree'.
    - exists j', e0. split; [done|]. split; [|done]. by rewrite list_lookup_insert_ne. }
  exists st'. by rewrite Hloop.
Qed.

(** X14. A collection without news: when every record of the snapshot
    belongs to a stored entity that already holds the record's score,
    status and odds, the merge of the collection runs to its end and
    reports no created and no changed match; the save step of the
    collection (lines 937-946) then writes none of its files, and the
    collection adds no line to the log of odds changes, whatever else of
    the records (timestamp, countdown, links) the merge has written into
    the store.  (What else the cycle writes is not part of this
    statement.) *)
Theorem quiet_collection_is_not_saved
    (to_csv : list match_data → bool → string)
    (json_dump : list match_data → string)
    (path_join : string → string → string)
    (data_dir collection timestamp label : string) (update_count : nat)
    (w_json w_snapshot w_csv : write_outcome)
    (stored parsed : list match_data) (fs : gmap string string) :
  hashable_ids stored →
  (∀ r id, r ∈ parsed → get_id r = Some id →
     hashable id = true ∧ is_Some (r !! "timestamp")
     ∧ ∃ j e, last_index stored id = Some j ∧ stored !! j = Some e ∧ agrees e r) →
  ∃ st,
    reconcile stored parsed = (st, Returned tt)
    ∧ new_matches st = [] ∧ changed_matches st = []
    ∧ persist_changes to_csv json_dump path_join data_dir collection timestamp
        update_count st w_json w_snapshot w_csv fs = fs
    ∧ log_changes label (length stored) (events st) (changed_matches st) = [].
Proof.
  intros Hs Hall.
  destruct (build_map_returned stored 0 ∅ Hs) as (live_map & Hb).
  destruct (update_events_quiet live_map parsed (LoopState stored [] []))
    as (st & Hloop & Hnew & Hchanged).
  { intros r id Hin Hid.
    destruct (Hall r id Hin Hid) as (Hh & Hts & j & e & Hj & He & Hagree).
    split; [done|]. split; [done|]. exists j, e.
    by rewrite (build_map_lookup _ _ _ Hb). }
  exists st. unfold reconcile. rewrite Hb. split; [done|].
  simpl in Hnew, Hchanged. split; [done|]. split; [done|]. split.
  - unfold persist_changes. by rewrite Hnew, Hchanged.
  - by rewrite Hchanged.
Qed.

(** ** The failure counter, further *)

(** X15. An exception raised after the fetch (in parsing, merging or
    saving) finds the counter already put back to zero: passes that end
    that way, or normally, never take the threshold branch, and after any
    of them the counter is at most 1.  (The statement is about the
    counter and its threshold branch only: the scheduled restart and the
    teardown inside [get_page_content] are not part of [update_cycle].) *)
Theorem late_exceptions_never_reach_threshold
    (consecutive_errors : nat) (cs : list cycle) :
  Forall (λ c, c = RaisedLate ∨ c = Completed) cs →
  (run_cycles consecutive_errors cs).2 = []
  ∧ (cs ≠ [] → (run_cycles consecutive_errors cs).1 ≤ 1).
Proof.
  intros Hall. revert consecutive_errors.
  induction Hall as [|c rest Hc _ IH]; intros n; simpl; [done|].
  assert (Hstep : ∃ n', update_cycle n c = (n', []) ∧ n' ≤ 1).
  { destruct Hc as [-> | ->]; simpl; eexists; split; [reflexivity|lia |reflexivity|lia]. }
  destruct Hstep as (n' & -> & Hn').
  destruct (IH n') as [Hacts Hcount].
  destruct (run_cycles n' rest) as [n'' acts] eqn:Hrun. simpl in *.
  split; [done|]. intros _.
  destruct rest as [|c' rest']; [|by apply Hcount].
  simpl in Hrun. by injection Hrun as <- <-.
Qed.

(** X16. Failed fetches in a row that keep the counter below the
    threshold, followed by a pass that completes, never take the
    threshold branch and leave the counter at zero.  (About the counter
    and its threshold branch only: [get_page_content] may have torn the
    driver down on each of the failed fetches.) *)
Theorem failures_below_threshold_then_success
    (consecutive_errors k : nat) :
  consecutive_errors + k < max_consecutive_errors →
  run_cycles consecutive_errors (replicate k NoContent ++ [Completed]) = (0, []).
Proof.
  revert consecutive_errors. induction k as [|k IH]; intros n Hlt; [done|].
  assert (Hstep : update_cycle n NoContent = (n + 1, [])).
  { unfold update_cycle. by rewrite (proj2 (Nat.leb_gt _ _)) by lia. }
  cbn [replicate app run_cycles]. rewrite Hstep, IH by lia. done.
Qed.

(** ** Retention, further *)

Lemma filter_filter_same {A} (P : A → Prop) `{!∀ x, Decision (P x)} (l : list A) :
  filter P (filter P l) = filter P l.
Proof.
  induction l as [|x l IH]; [done|].
  destruct (decide (P x)).
  - rewrite !filter_cons_True by done. by rewrite IH.
  - by rewrite !filter_cons_False.
Qed.

Lemma cleanup_old_data_filter cutoff_str (s : stores) :
  text_timestamps (live_events s) → text_timestamps (upcoming_events s) →
  cleanup_old_data cutoff_str s
  = (Stores (filter (λ m, at_or_before cutoff_str m = false) (live_events s))
            (filter (λ m, at_or_before cutoff_str m = false) (upcoming_events s)),
     Returned tt).
Proof.
  intros Hl Hu. unfold cleanup_old_data.
  assert (Hcase : ∀ l, text_timestamps l →
            match l with [] => Returned [] | _ => trim cutoff_str l end
            = Returned (filter (λ m, at_or_before cutoff_str m = false) l)).
  { intros l Hl'. rewrite <- (trim_filter _ _ Hl'). by destruct l. }
  by rewrite (Hcase _ Hl), (Hcase _ Hu).
Qed.

(** X17. The trim only ever takes records out: what it leaves of each
    store is a sublist of the store, in the same order; and a second trim
    with the same cutoff changes nothing more. *)
Theorem cleanup_old_data_sublist_stable (cutoff_str : string) (s : stores) :
  text_timestamps (live_events s) →
  text_timestamps (upcoming_events s) →
  live_events (cleanup_old_data cutoff_str s).1 `sublist_of` live_events s
  ∧ upcoming_events (cleanup_old_data cutoff_str s).1 `sublist_of` upcoming_events s
  ∧ cleanup_old_data cutoff_str (cleanup_old_data cutoff_str s).1
    = cleanup_old_data cutoff_str s.
Proof.
  intros Hl Hu. rewrite (cleanup_old_data_filter _ _ Hl Hu). simpl.
  split; [apply sublist_filter|]. split; [apply sublist_filter|].
  rewrite cleanup_old_data_filter; simpl.
  - by rewrite !filter_filter_same.
  - apply Forall_forall. intros m Hm. apply list_elem_of_filter in Hm as [_ Hm].
    by apply (proj1 (Forall_forall _ _) Hl).
  - apply Forall_forall. intros m Hm. apply list_elem_of_filter in Hm as [_ Hm].
    by apply (proj1 (Forall_forall _ _) Hu).
Qed.

(** ** The further statements on sample data *)

Lemma update_match_odds_is_union_witness :
  is_Some (first_leg_later !! "timestamp")
  ∧ (update_match_odds first_leg first_leg_later).1
    = delete "match_id" first_leg_later ∪ first_leg.
Proof.
  assert (H1 : is_Some (first_leg_later !! "timestamp"))
    by (eexists; vm_compute; reflexivity).
  split; [exact H1|].
  exact (update_match_odds_is_union first_leg first_leg_later H1).
Defined.

Lemma update_match_odds_twice_witness :
  is_Some (first_leg_new_odds !! "timestamp")
  ∧ update_match_odds (update_match_odds first_leg first_leg_new_odds).1
      first_leg_new_odds
    = ((update_match_odds first_leg first_leg_new_odds).1, Returned false).
Proof.
  assert (H1 : is_Some (first_leg_new_odds !! "timestamp"))
    by (eexists; vm_compute; reflexivity).
  split; [exact H1|].
  exact (update_match_odds_twice first_leg first_leg_new_odds H1).
Defined.

Lemma reconcile_leaves_absent_entities_witness :
  [first_leg; other_match] !! 1 = Some other_match
  ∧ (∀ id, get_id other_match = Some id → id ∉ ids [first_leg_new_odds])
  ∧ events (reconcile [first_leg; other_match] [first_leg_new_odds]).1 !! 1
    = Some other_match.
Proof.
  assert (H1 : [first_leg; other_match] !! 1 = Some other_match) by reflexivity.
  assert (H2 : ∀ id, get_id other_match = Some id → id ∉ ids [first_leg_new_odds]).
  { intros id Hid. vm_compute in Hid. injection Hid as <-.
    apply (bool_decide_unpack _). vm_compute. exact I. }
  split; [exact H1|]. split; [exact H2|].
  exact (reconcile_leaves_absent_entities _ _ _ _ H1 H2).
Defined.

Lemma reconcile_change_set_witness :
  reconcile [first_leg] [first_leg_new_odds; other_match]
    = (LoopState [first_leg_new_odds; other_match] [other_match] [0], Returned tt)
  ∧ [other_match] = filter (λ m, is_new [first_leg] m = true)
                      [first_leg_new_odds; other_match]
  ∧ [first_leg_new_odds; other_match]
    = take (length [first_leg]) [first_leg_new_odds; other_match] ++ [other_match]
  ∧ get_id <$> take (length [first_leg]) [first_leg_new_odds; other_match]
    = get_id <$> [first_leg]
  ∧ length [first_leg_new_odds; other_match]
    = length [first_leg] + length [other_match]
  ∧ Forall (λ i, i < length [first_leg]) [0].
Proof.
  assert (H1 : reconcile [first_leg] [first_leg_new_odds; other_match]
    = (LoopState [first_leg_new_odds; other_match] [other_match] [0], Returned tt))
    by (vm_compute; reflexivity).
  split; [exact H1|].
  exact (reconcile_change_set _ _ _ H1).
Defined.

(** With two entities of one id in the store the log does get lines,
    and they compare the merged entity (the later one) with the earlier
    one: the old value shown, 1.85, is not what the merged entity held
    (2.10). *)
Lemma odds_log_compares_with_first_duplicate :
  changed_matches (reconcile [first_leg; second_leg] [first_leg_new_odds]).1 = [1]
  ∧ second_leg !! "odd_w1" = Some (VStr "2.10")
  ∧ LogLine "LIVE" (Some (VStr "Arsenal")) (Some (VStr "Chelsea")) "odd_w1"
      (VStr "1.85") (VStr "1.90")
    ∈ log_changes "LIVE" 2
        (events (reconcile [first_leg; second_leg] [first_leg_new_odds]).1) [1].
Proof.
  split; [vm_compute; reflexivity|]. split; [vm_compute; reflexivity|].
  apply (bool_decide_unpack _). vm_compute. exact I.
Qed.

Lemma odds_log_has_no_lines_witness :
  reconcile [first_leg] [first_leg_new_odds; other_match]
    = ((reconcile [first_leg] [first_leg_new_odds; other_match]).1, Returned tt)
  ∧ unique_ids [first_leg]
  ∧ log_changes "UPCOMING" (length [first_leg])
      (events (reconcile [first_leg] [first_leg_new_odds; other_match]).1)
      (changed_matches (reconcile [first_leg] [first_leg_new_odds; other_match]).1)
    = [].
Proof.
  assert (H1 : reconcile [first_leg] [first_leg_new_odds; other_match]
    = ((reconcile [first_leg] [first_leg_new_odds; other_match]).1, Returned tt))
    by (vm_compute; reflexivity).
  assert (H2 : unique_ids [first_leg]) by (unfold unique_ids; nodup_tac).
  split; [exact H1|]. split; [exact H2|].
  exact (odds_log_has_no_lines "UPCOMING" _ _ _ H1 H2).
Defined.

Lemma extract_odds_touches_odds_fields_only_witness :
  String.prefix "odd_" "match_id" = false
  ∧ extract_odds_cells id id ["1"; "X"; "2"] (Some sample_cells) first_leg !! "match_id"
    = first_leg !! "match_id".
Proof.
  split; [reflexivity|].
  exact (extract_odds_touches_odds_fields_only id id ["1"; "X"; "2"]
           (Some sample_cells) first_leg "match_id" eq_refl).
Defined.

Lemma extract_odds_positions_witness :
  valid_cells sample_cells !! 2 = Some (BetCell None false (Some "2.75"))
  ∧ odds_value_of (BetCell None false (Some "2.75")) = Some "2.75"
  ∧ extract_odds_cells id id ["1"; "X"; "2"] (Some sample_cells) ∅
      !! ("odd_position_" +:+ str_of_nat (2 + 1))
    = Some (VStr "2.75").
Proof.
  assert (H1 : valid_cells sample_cells !! 2 = Some (BetCell None false (Some "2.75")))
    by reflexivity.
  assert (H2 : odds_value_of (BetCell None false (Some "2.75")) = Some "2.75")
    by reflexivity.
  split; [exact H1|]. split; [exact H2|].
  exact (extract_odds_positions id id ["1"; "X"; "2"] sample_cells ∅ 2 _ _ H1 H2).
Defined.

Lemma extract_odds_without_odds_witness :
  (∀ cells, Some closed_cells = Some cells →
     Forall (λ c, cell_non c = true ∨ odds_value_of c = None) cells)
  ∧ extract_odds_cells id id ["1"; "X"; "2"] (Some closed_cells) first_leg = first_leg.
Proof.
  assert (H1 : ∀ cells, Some closed_cells = Some cells →
     Forall (λ c, cell_non c = true ∨ odds_value_of c = None) cells).
  { intros cells [= <-]. unfold closed_cells.
    repeat (apply Forall_cons; split); [by left|by right|by right|by apply Forall_nil]. }
  split; [exact H1|].
  exact (extract_odds_without_odds id id ["1"; "X"; "2"] (Some closed_cells) first_leg H1).
Defined.

Lemma positional_match_ids_differ_witness :
  live_teams (LiveCells None (Some "45'") [] [] None None) = None
  ∧ parse_live_match fa_cup "2025-04-01 10:00:00" 3 (LiveCells None (Some "45'") [] [] None None)
      !! "match_id"
    = parse_live_match fa_cup "2025-04-01 10:02:00" 3 (LiveCells None None [] [] None None)
      !! "match_id"
  ∧ 3 = 3.
Proof.
  assert (H1 : live_teams (LiveCells None (Some "45'") [] [] None None) = None)
    by reflexivity.
  assert (H2 : live_teams (LiveCells None None [] [] None None) = None) by reflexivity.
  assert (H3 : parse_live_match fa_cup "2025-04-01 10:00:00" 3
                 (LiveCells None (Some "45'") [] [] None None) !! "match_id"
    = parse_live_match fa_cup "2025-04-01 10:02:00" 3
        (LiveCells None None [] [] None None) !! "match_id")
    by (vm_compute; reflexivity).
  split; [exact H1|]. split; [exact H3|].
  exact (positional_match_ids_differ _ _ _ _ _ _ _ H1 H2 H3).
Defined.

Lemma get_sport_name_inj_witness :
  get_sport_name "66" = get_sport_name "66" ∧ "66" = "66".
Proof.
  split; [reflexivity|].
  exact (get_sport_name_inj "66" "66" eq_refl).
Defined.

Lemma get_all_leagues_deduplicates_witness :
  NoDup (league_ids (get_all_leagues sample_headers))
  ∧ (∀ h ld, h ∈ sample_headers → league_data_of h = Some ld →
       ∃ id, ld !! "league_id" = Some id
             ∧ id ∈ league_ids (get_all_leagues sample_headers))
  ∧ (∀ before h after ld,
       sample_headers = before ++ h :: after →
       league_data_of h = Some ld →
       (∀ h' ld', h' ∈ before → league_data_of h' = Some ld' →
          ld' !! "league_id" ≠ ld !! "league_id") →
       ld ∈ get_all_leagues sample_headers).
Proof. exact (get_all_leagues_deduplicates sample_headers). Defined.

Lemma rotation_keeps_five_newest_witness :
  old_files sample_files ++ kept_files sample_files ≡ₚ sample_files
  ∧ length (kept_files sample_files) = min 5 (length sample_files)
  ∧ (∀ f g, f ∈ old_files sample_files → g ∈ kept_files sample_files → f.2 ≤ g.2)
  ∧ ((∀ path, (λ _ : string, false) path = false) →
     rotate (λ _, false) sample_files = kept_files sample_files).
Proof. exact (rotation_keeps_five_newest (λ _, false) sample_files). Defined.

(** The eight sample files: the three oldest go. *)
Lemma rotation_sample :
  old_files sample_files
  = [ ("1xbet_live_events_20250401-1000.json", 1000);
      ("1xbet_live_events_20250401-1020.json", 1020);
      ("1xbet_live_events_final_20250401-1030.json", 1030) ]
  ∧ length (rotate (λ _, false) sample_files) = 5.
Proof. split; vm_compute; reflexivity. Qed.

(** The sample headers: two leagues, the first header of each kept. *)
Lemma get_all_leagues_sample :
  league_ids (get_all_leagues sample_headers)
  = [VStr "Football_FA Cup"; VStr "Tennis_ATP Rome"]
  ∧ (get_all_leagues sample_headers !! 0) ≫= (.!! "country") = Some (VStr "gb").
Proof. split; vm_compute; reflexivity. Qed.

Lemma persist_changes_appends_new_matches_witness :
  sample_join "data" ("1xbet_upcoming_events" +:+ ".json")
    ≠ sample_join "data" ("1xbet_upcoming_events" +:+ ".csv")
  ∧ sample_join "data" ("1xbet_upcoming_events" +:+ "_" +:+ "20250401-1002" +:+ ".json")
    ≠ sample_join "data" ("1xbet_upcoming_events" +:+ ".csv")
  ∧ sample_join "data" ("1xbet_upcoming_events" +:+ "_" +:+ "20250401-1002" +:+ ".json")
    ≠ sample_join "data" ("1xbet_upcoming_events" +:+ ".json")
  ∧ reconcile [first_leg] [first_leg_new_odds; other_match]
    = (LoopState [first_leg_new_odds; other_match] [other_match] [0], Returned tt)
  ∧ new_matches (LoopState [first_leg_new_odds; other_match] [other_match] [0]) ≠ []
  ∧ let st := LoopState [first_leg_new_odds; other_match] [other_match] [0] in
    let fs : gmap string string :=
      {[ sample_join "data" "1xbet_upcoming_events.csv" := "header;rows:1;" ]} in
    let json := sample_join "data" ("1xbet_upcoming_events" +:+ ".json") in
    let snapshot :=
      sample_join "data"
        ("1xbet_upcoming_events" +:+ "_" +:+ "20250401-1002" +:+ ".json") in
    let csv := sample_join "data" ("1xbet_upcoming_events" +:+ ".csv") in
    let fs' := persist_changes sample_csv sample_json sample_join "data"
                 "1xbet_upcoming_events" "20250401-1002" 7 st
                 Written Written Written fs in
    fs' !! json = Some (sample_json (events st))
    ∧ fs' !! csv
      = Some (default "" (fs !! csv)
              +:+ sample_csv (new_matches st) (negb (bool_decide (is_Some (fs !! csv)))))
    ∧ (∀ path, path ≠ json → path ≠ snapshot → path ≠ csv →
         fs' !! path = fs !! path).
Proof.
  assert (Ha : sample_join "data" ("1xbet_upcoming_events" +:+ ".json")
    ≠ sample_join "data" ("1xbet_upcoming_events" +:+ ".csv"))
    by (vm_compute; discriminate).
  assert (Hb : sample_join "data"
                 ("1xbet_upcoming_events" +:+ "_" +:+ "20250401-1002" +:+ ".json")
    ≠ sample_join "data" ("1xbet_upcoming_events" +:+ ".csv"))
    by (vm_compute; discriminate).
  assert (Hc : sample_join "data"
                 ("1xbet_upcoming_events" +:+ "_" +:+ "20250401-1002" +:+ ".json")
    ≠ sample_join "data" ("1xbet_upcoming_events" +:+ ".json"))
    by (vm_compute; discriminate).
  assert (H2 : reconcile [first_leg] [first_leg_new_odds; other_match]
    = (LoopState [first_leg_new_odds; other_match] [other_match] [0], Returned tt))
    by (vm_compute; reflexivity).
  assert (H3 : new_matches (LoopState [first_leg_new_odds; other_match]
                              [other_match] [0]) ≠ []) by discriminate.
  split; [exact Ha|]. split; [exact Hb|]. split; [exact Hc|].
  split; [exact H2|]. split; [exact H3|].
  exact (persist_changes_appends_new_matches sample_csv sample_json
           sample_join "data" "1xbet_upcoming_events" "20250401-1002" 7
           _ _ _ {[ sample_join "data" "1xbet_upcoming_events.csv" := "header;rows:1;" ]}
           Ha Hb Hc H2 H3).
Defined.

(** The sample step in figures: the log had one row and gets one more,
    without a second header. *)
Lemma persist_changes_sample :
  persist_changes sample_csv sample_json sample_join "data" "1xbet_upcoming_events"
    "20250401-1002" 7 (LoopState [first_leg_new_odds; other_match] [other_match] [0])
    Written Written Written
    {[ "data/1xbet_upcoming_events.csv" := "header;rows:1;" ]}
  = {[ "data/1xbet_upcoming_events.csv" := "header;rows:1;rows:1;";
       "data/1xbet_upcoming_events.json" := "json:2" ]}.
Proof. vm_compute. reflexivity. Qed.

Lemma quiet_collection_is_not_saved_witness :
  hashable_ids [first_leg]
  ∧ (∀ r id, r ∈ [first_leg_later] → get_id r = Some id →
       hashable id = true ∧ is_Some (r !! "timestamp")
       ∧ ∃ j e, last_index [first_leg] id = Some j ∧ [first_leg] !! j = Some e
                ∧ agrees e r)
  ∧ ∃ st,
      reconcile [first_leg] [first_leg_later] = (st, Returned tt)
      ∧ new_matches st = [] ∧ changed_matches st = []
      ∧ persist_changes sample_csv sample_json sample_join "data"
          "1xbet_upcoming_events" "20250401-1002" 10 st Written Written Written ∅ = ∅
      ∧ log_changes "UPCOMING" (length [first_leg]) (events st) (changed_matches st) = [].
Proof.
  assert (H1 : hashable_ids [first_leg]) by hashable_ids_tac.
  assert (H2 : ∀ r id, r ∈ [first_leg_later] → get_id r = Some id →
       hashable id = true ∧ is_Some (r !! "timestamp")
       ∧ ∃ j e, last_index [first_leg] id = Some j ∧ [first_leg] !! j = Some e
                ∧ agrees e r).
  { intros r id Hin Hid. apply list_elem_of_singleton in Hin. subst r.
    vm_compute in Hid. injection Hid as <-.
    split; [reflexivity|]. split; [eexists; vm_compute; reflexivity|].
    exists 0, first_leg. split; [vm_compute; reflexivity|]. split; [reflexivity|].
    intros key v Hv Hcnt.
    destruct (update_match_odds_flag first_leg first_leg_later
                (VStr "2025-04-01 10:02:00") eq_refl) as (c & Hc & Hiff).
    assert (c = false) as -> by (vm_compute in Hc; by injection Hc).
    destruct (first_leg !! key) as [old|] eqn:Hold.
    - destruct (decide (old = v)) as [->|Hne]; [done|].
      exfalso. assert (false = true); [|done]. apply Hiff. exists key, v.
      split; [done|]. split; [done|]. congruence.
    - exfalso. assert (false = true); [|done]. apply Hiff. exists key, v.
      split; [done|]. split; [done|]. congruence. }
  split; [exact H1|]. split; [exact H2|].
  exact (quiet_collection_is_not_saved sample_csv sample_json sample_join "data"
           "1xbet_upcoming_events" "20250401-1002" "UPCOMING" 10
           Written Written Written _ _ ∅ H1 H2).
Defined.

Lemma late_exceptions_never_reach_threshold_witness :
  Forall (λ c, c = RaisedLate ∨ c = Completed)
    [RaisedLate; RaisedLate; Completed; RaisedLate; RaisedLate; RaisedLate; RaisedLate]
  ∧ (run_cycles 4
       [RaisedLate; RaisedLate; Completed; RaisedLate; RaisedLate; RaisedLate; RaisedLate]).2
    = []
  ∧ ([RaisedLate; RaisedLate; Completed; RaisedLate; RaisedLate; RaisedLate; RaisedLate]
       ≠ [] →
     (run_cycles 4
        [RaisedLate; RaisedLate; Completed; RaisedLate; RaisedLate; RaisedLate;
         RaisedLate]).1 ≤ 1).
Proof.
  assert (H1 : Forall (λ c, c = RaisedLate ∨ c = Completed)
    [RaisedLate; RaisedLate; Completed; RaisedLate; RaisedLate; RaisedLate; RaisedLate]).
  { repeat (apply Forall_cons; split); try (by left); try (by right). }
  split; [exact H1|].
  exact (late_exceptions_never_reach_threshold 4 _ H1).
Defined.

Lemma failures_below_threshold_witness :
  0 + 4 < max_consecutive_errors
  ∧ run_cycles 0 (replicate 4 NoContent ++ [Completed]) = (0, []).
Proof.
  assert (H1 : 0 + 4 < max_consecutive_errors) by (unfold max_consecutive_errors; lia).
  split; [exact H1|].
  exact (failures_below_threshold_then_success 0 4 H1).
Defined.

Lemma cleanup_old_data_sublist_stable_witness :
  text_timestamps [first_leg; first_leg_later]
  ∧ text_timestamps [other_match]
  ∧ live_events (cleanup_old_data "2025-04-01 10:00:00"
                   (Stores [first_leg; first_leg_later] [other_match])).1
    `sublist_of` [first_leg; first_leg_later]
  ∧ upcoming_events (cleanup_old_data "2025-04-01 10:00:00"
                       (Stores [first_leg; first_leg_later] [other_match])).1
    `sublist_of` [other_match]
  ∧ cleanup_old_data "2025-04-01 10:00:00"
      (cleanup_old_data "2025-04-01 10:00:00"
         (Stores [first_leg; first_leg_later] [other_match])).1
    = cleanup_old_data "2025-04-01 10:00:00"
        (Stores [first_leg; first_leg_later] [other_match]).
Proof.
  assert (H1 : text_timestamps [first_leg; first_leg_later]).
  { unfold text_timestamps. repeat (apply Forall_cons; split);
      [ .. | by apply Forall_nil ];
      intros v Hv; vm_compute in Hv; injection Hv as <-; by eexists. }
  assert (H2 : text_timestamps [other_match]).
  { unfold text_timestamps. repeat (apply Forall_cons; split);
      [ .. | by apply Forall_nil ];
      intros v Hv; vm_compute in Hv; injection Hv as <-; by eexists. }
  split; [exact H1|]. split; [exact H2|].
  exact (cleanup_old_data_sublist_stable "2025-04-01 10:00:00"
           (Stores [first_leg; first_leg_later] [other_match]) H1 H2).
Defined.
